(** * QDSX engine: transform pipeline, container format and pack/unpack

    A shallow embedding of [qdsx_engine.py].  Byte strings are lists of
    [Byte.byte]; Python integers are [Z] (arithmetic) or [nat] (positions and
    counts); a Python exception is a value of [exn] carried by the [result]
    monad; dictionaries are [gmap]s, except the two registries, whose
    iteration order the strategy search depends on. *)

From Stdlib Require Import ZArith Lia Floats.
From Stdlib.Strings Require Import Byte.
From stdpp Require Import base option list sorting gmap strings.

Open Scope string_scope.
Open Scope list_scope.
Open Scope Z_scope.

Abbreviation bytes := (list byte).

(** ** Python values and exceptions *)

(** The values [json.loads] can return, and the keys a failed dictionary
    lookup reports. *)
#[local] Unset Elimination Schemes.
Inductive pyval :=
| PNone
| PBool (b : bool)
| PInt (z : Z)
| PFloat (f : float)
| PStr (s : string)
| PList (l : list pyval)
| PTuple (l : list pyval)
| PDict (m : gmap string pyval).
#[local] Set Elimination Schemes.

Inductive exn :=
| IndexError
| ValueError
| StructError
| KeyError (key : pyval)
| TypeError
| AttributeError
| OSError (path : string)
| RuntimeError (msg : string)
| LibraryError (origin : string).

Inductive result (A : Type) :=
| Ok (a : A)
| Raise (e : exn).
Arguments Ok {A} a.
Arguments Raise {A} e.

#[global] Instance result_ret : MRet result := λ A a, Ok a.
#[global] Instance result_bind : MBind result := λ A B f m,
  match m with Ok a => f a | Raise e => Raise e end.
#[global] Instance result_fmap : FMap result := λ A B f m,
  match m with Ok a => Ok (f a) | Raise e => Raise e end.

(** [l[i]] for a non-negative index. *)
Definition py_index {A} (l : list A) (i : nat) : result A :=
  match l !! i with Some x => Ok x | None => Raise IndexError end.

(** [l.index(x)]: the first position holding [x]. *)
Fixpoint index_of `{EqDecision A} (x : A) (l : list A) : result nat :=
  match l with
  | [] => Raise ValueError
  | y :: l' => if decide (y = x) then Ok 0%nat else S <$> index_of x l'
  end.

(** A list comprehension whose body can raise. *)
Fixpoint traverse {A B} (f : A → result B) (l : list A) : result (list B) :=
  match l with
  | [] => Ok []
  | x :: l' => y ← f x; ys ← traverse f l'; Ok (y :: ys)
  end.

(** ** Bytes *)

#[global] Instance byte_eq_dec : EqDecision byte := Byte.byte_eq_dec.
#[global] Instance byte_countable : Countable byte :=
  inj_countable Byte.to_N Byte.of_N Byte.of_to_N.

Definition byte_to_Z (b : byte) : Z := Z.of_N (Byte.to_N b).
Definition byte_to_nat (b : byte) : nat := N.to_nat (Byte.to_N b).

(** Storing an integer into a [bytes]/[bytearray].  Every integer the engine
    stores is within 0..255 (a masked value, a capped run length, a position in
    the 256-entry alphabet), which the lemmas below establish where it
    matters. *)
Definition byte_of_Z (z : Z) : byte := default x00 (Byte.of_N (Z.to_N z)).
Definition byte_of_nat (n : nat) : byte := byte_of_Z (Z.of_nat n).

Definition byte_ltb (a b : byte) : bool := (Byte.to_N a <? Byte.to_N b)%N.

(** [x < y] on byte strings: lexicographic, a proper prefix is smaller. *)
Fixpoint bytes_ltb (x y : bytes) : bool :=
  match x, y with
  | _, [] => false
  | [], _ :: _ => true
  | a :: x', b :: y' =>
      if byte_ltb a b then true
      else if byte_ltb b a then false
      else bytes_ltb x' y'
  end.

(** [sorted(l)] under a [<] test: Python's sort is stable and compares with
    [<] only.  Insertion from the right keeps equal elements in their order. *)
Fixpoint insert_sorted {A} (ltb : A → A → bool) (x : A) (l : list A) : list A :=
  match l with
  | [] => [x]
  | y :: l' => if ltb y x then y :: insert_sorted ltb x l' else x :: y :: l'
  end.

Definition py_sorted {A} (ltb : A → A → bool) (l : list A) : list A :=
  foldr (insert_sorted ltb) [] l.

(** [struct.pack(">I", n)] and [struct.unpack(">I", b)[0]]. *)
Definition struct_pack_I (n : Z) : result bytes :=
  if decide (0 ≤ n < 2 ^ 32) then
    Ok [byte_of_Z (Z.land (Z.shiftr n 24) 255); byte_of_Z (Z.land (Z.shiftr n 16) 255);
        byte_of_Z (Z.land (Z.shiftr n 8) 255); byte_of_Z (Z.land n 255)]
  else Raise StructError.

Definition struct_unpack_I (b : bytes) : result Z :=
  match b with
  | [b3; b2; b1; b0] =>
      Ok (Z.lor (Z.shiftl (byte_to_Z b3) 24)
            (Z.lor (Z.shiftl (byte_to_Z b2) 16)
               (Z.lor (Z.shiftl (byte_to_Z b1) 8) (byte_to_Z b0))))
  | _ => Raise StructError
  end.

(** ** Transforms *)

Definition tf_none (data : bytes) : bytes := data.
Definition itf_none (data : bytes) : bytes := data.

(** The loop of [tf_delta], [prev] being the previous input byte. *)
Fixpoint tf_delta_loop (prev : Z) (data : bytes) : bytes :=
  match data with
  | [] => []
  | b :: rest =>
      byte_of_Z (Z.land (byte_to_Z b - prev) 255) :: tf_delta_loop (byte_to_Z b) rest
  end.

Definition tf_delta (data : bytes) : bytes := tf_delta_loop 0 data.

(** The loop of [itf_delta], [prev] being the previous output byte. *)
Fixpoint itf_delta_loop (prev : Z) (data : bytes) : bytes :=
  match data with
  | [] => []
  | b :: rest =>
      let val := Z.land (byte_to_Z b + prev) 255 in
      byte_of_Z val :: itf_delta_loop val rest
  end.

Definition itf_delta (data : bytes) : bytes := itf_delta_loop 0 data.

(** [tf_rle]: the state inside the inner [while], with [b] the byte of the
    current run, [run] its length so far and [rest] the bytes from position
    [i] on.  Leaving the inner loop appends the pair and, when bytes remain,
    re-enters the outer loop, which opens a run of length 1 at the next byte. *)
Fixpoint tf_rle_run (b : byte) (run : nat) (rest : bytes) : bytes :=
  match rest with
  | [] => [b; byte_of_nat run]
  | x :: rest' =>
      if bool_decide (x = b) && (run <? 255)%nat then tf_rle_run b (S run) rest'
      else b :: byte_of_nat run :: tf_rle_run x 1 rest'
  end.

Definition tf_rle (data : bytes) : bytes :=
  match data with
  | [] => []
  | b :: rest => tf_rle_run b 1 rest
  end.

(** [itf_rle]: [zip(it, it)] pairs the bytes up two at a time and stops when
    fewer than two are left. *)
Fixpoint itf_rle (data : bytes) : bytes :=
  match data with
  | b :: run :: rest => replicate (byte_to_nat run) b ++ itf_rle rest
  | _ => []
  end.

(** ** Burrows-Wheeler transform *)

Definition rot_key (data : bytes) (i : nat) : bytes := drop i data ++ take i data.

(** [bwt_transform]: [order] is [sorted(range(n), key=rot_key)]; row [r] of
    the last column is filled with the byte before rotation [order[r]]. *)
Definition bwt_transform (data : bytes) : result (bytes * nat) :=
  let n := length data in
  if decide (n = 0)%nat then Ok ([], 0%nat)
  else
    let order :=
      py_sorted (λ i j, bytes_ltb (rot_key data i) (rot_key data j)) (seq 0 n) in
    primary ← index_of 0%nat order;
    last_col ← traverse (λ i, if decide (i ≠ 0)%nat then py_index data (i - 1)
                               else py_index data (n - 1)) order;
    Ok (last_col, primary).

(** The two counting loops of [bwt_inverse]: [count_map.get(b, 0) + 1] is
    recorded for every byte met. *)
Fixpoint occ_loop (count_map : gmap byte nat) (l : bytes) : list nat :=
  match l with
  | [] => []
  | b :: rest =>
      let c := (default 0 (count_map !! b) + 1)%nat in
      c :: occ_loop (<[b := c]> count_map) rest
  end.

(** [<] on the tuples [(b, i)] of [first]. *)
Definition pair_ltb (p q : byte * nat) : bool :=
  if byte_ltb p.1 q.1 then true
  else if byte_ltb q.1 p.1 then false
  else (p.2 <? q.2)%nat.

(** [enumerate(l)] *)
Definition enumerate {A} (l : list A) : list (nat * A) := zip (seq 0 (length l)) l.

(** The loop filling the dictionary [pos_first]. *)
Definition pos_first_loop (first : list (byte * nat)) (occ_first : list nat)
    : gmap (byte * nat) nat :=
  foldl (λ pos_first '(idx, (p, k)), <[(p.1, k) := idx]> pos_first) ∅
        (enumerate (zip first occ_first)).

Definition dict_get (pos_first : gmap (byte * nat) nat) (key : byte * nat) : result nat :=
  match pos_first !! key with
  | Some idx => Ok idx
  | None => Raise (KeyError (PTuple [PInt (byte_to_Z key.1); PInt (Z.of_nat key.2)]))
  end.

(** The final loop of [bwt_inverse] over [range(n - 1, -1, -1)]. *)
Fixpoint bwt_walk (last : bytes) (LF : list nat) (res : bytes) (r : nat)
    (idxs : list nat) : result bytes :=
  match idxs with
  | [] => Ok res
  | i :: idxs' =>
      b ← py_index last r;
      r' ← py_index LF r;
      bwt_walk last LF (<[i := b]> res) r' idxs'
  end.

Definition bwt_inverse (last_col : bytes) (primary : nat) : result bytes :=
  let n := length last_col in
  if decide (n = 0)%nat then Ok []
  else
    let last := last_col in
    let first := py_sorted pair_ltb (prod_swap <$> enumerate last) in
    let occ_last := occ_loop ∅ last in
    let occ_first := occ_loop ∅ (fst <$> first) in
    let pos_first := pos_first_loop first occ_first in
    LF ← traverse (λ r, b ← py_index last r; k ← py_index occ_last r;
                        dict_get pos_first (b, k)) (seq 0 n);
    bwt_walk last LF (replicate n x00) primary (reverse (seq 0 n)).

(** ** Move-to-front *)

(** [list(range(256))] *)
Definition alphabet0 : bytes := byte_of_nat <$> seq 0 256.

Fixpoint mtf_encode_loop (alphabet : bytes) (data : bytes) : result bytes :=
  match data with
  | [] => Ok []
  | b :: rest =>
      idx ← index_of b alphabet;
      out ← mtf_encode_loop (b :: delete idx alphabet) rest;
      Ok (byte_of_nat idx :: out)
  end.

Definition mtf_encode (data : bytes) : result bytes := mtf_encode_loop alphabet0 data.

Fixpoint mtf_decode_loop (alphabet : bytes) (data : bytes) : result bytes :=
  match data with
  | [] => Ok []
  | i :: rest =>
      let idx := byte_to_nat i in
      b ← py_index alphabet idx;
      out ← mtf_decode_loop (b :: delete idx alphabet) rest;
      Ok (b :: out)
  end.

Definition mtf_decode (data : bytes) : result bytes := mtf_decode_loop alphabet0 data.

(** ** The composite transform *)

Definition tf_bwt_mtf_rle (data : bytes) : result bytes :=
  '(bwt, primary) ← bwt_transform data;
  mtf ← mtf_encode bwt;
  prefix ← struct_pack_I (Z.of_nat primary);
  Ok (prefix ++ tf_rle mtf).

Definition itf_bwt_mtf_rle (payload : bytes) : result bytes :=
  if decide (length payload < 4)%nat then Ok []
  else
    primary ← struct_unpack_I (take 4 payload);
    let mtf_rle := drop 4 payload in
    let mtf := itf_rle mtf_rle in
    bwt_last ← mtf_decode mtf;
    bwt_inverse bwt_last (Z.to_nat primary).

(** ** The transform registry, in the order the dictionary lists it *)

Definition transform : Type := (bytes → result bytes) * (bytes → result bytes).

Definition TRANSFORMS : list (string * transform) :=
  [ ("none",        (λ d, Ok (tf_none d),  λ d, Ok (itf_none d)));
    ("delta",       (λ d, Ok (tf_delta d), λ d, Ok (itf_delta d)));
    ("rle",         (λ d, Ok (tf_rle d),   λ d, Ok (itf_rle d)));
    ("bwt_mtf_rle", (tf_bwt_mtf_rle,        itf_bwt_mtf_rle)) ].

(** ** The outside world *)

(** What the engine takes from Python's libraries and from the operating
    system: the three entropy coders ([zlib], [bz2], [lzma], each of which can
    raise), SHA-256 as a hex digest, JSON serialisation of the header
    ([json.dumps(..., sort_keys=True).encode("utf-8")] and
    [json.loads(b.decode("utf-8"))]), and two path operations. *)
Record platform := {
  zlib_compress : bytes → result bytes;
  zlib_decompress : bytes → result bytes;
  bz2_compress : bytes → result bytes;
  bz2_decompress : bytes → result bytes;
  lzma_compress : bytes → result bytes;
  lzma_decompress : bytes → result bytes;
  sha256_bytes : bytes → string;
  json_dumps : pyval → bytes;
  json_loads : bytes → result pyval;
  basename : string → string;
  with_suffix_empty : string → string;
}.

(** The lines [log] appends to [qdsx.log], without their time stamp and
    without the text of the exception or the ratio. *)
Inductive log_event :=
| LogPackEmpty (path outpath : string)
| LogTransformFail (tname path : string)
| LogCodecFail (cname path tname : string)
| LogPack (path outpath tname cname : string)
| LogUnpack (qpath out : string).

(** The log is a file of the same file system, [LOG_DIR / "qdsx.log"]. *)
Definition LOG_PATH : string := "QDSX_logs/qdsx.log".

(** Files by path, the clock as [time.strftime] formats it, and the log.
    The lines that [log] appends to the file [LOG_PATH] are kept in
    [log_lines], apart from [files]: at that one path [files] gives the
    content without the lines appended since, at every other path the
    content itself.  A path stands for the file it names, one key of
    [files] for each file. *)
Record world := {
  files : gmap string bytes;
  clock : string;
  log_lines : list log_event;
}.

(** A computation that reads and writes the world and can raise. *)
Definition io (A : Type) : Type := world → result A * world.

#[global] Instance io_ret : MRet io := λ A a w, (Ok a, w).
#[global] Instance io_bind : MBind io := λ A B f m w,
  match m w with
  | (Ok a, w') => f a w'
  | (Raise e, w') => (Raise e, w')
  end.

Definition io_lift {A} (r : result A) : io A := λ w, (r, w).
Definition io_raise {A} (e : exn) : io A := λ w, (Raise e, w).

Definition read_file (path : string) : io bytes := λ w,
  match files w !! path with
  | Some b => (Ok b, w)
  | None => (Raise (OSError path), w)
  end.

Definition write_file (path : string) (b : bytes) : io unit := λ w,
  (Ok (), {| files := <[path := b]> (files w); clock := clock w;
             log_lines := log_lines w |}).

Definition log (e : log_event) : io unit := λ w,
  (Ok (), {| files := files w; clock := clock w; log_lines := log_lines w ++ [e] |}).

Definition log_all (es : list log_event) : io unit := λ w,
  (Ok (), {| files := files w; clock := clock w; log_lines := log_lines w ++ es |}).

Definition strftime : io string := λ w, (Ok (clock w), w).

(** ** Dictionaries of Python values *)

(** [d.get(key, dflt)] *)
Definition dict_get_default (d : pyval) (key : string) (dflt : pyval) : result pyval :=
  match d with
  | PDict m => Ok (default dflt (m !! key))
  | _ => Raise AttributeError
  end.

(** [d[key]] *)
Definition dict_getitem (d : pyval) (key : string) : result pyval :=
  match d with
  | PDict m =>
      match m !! key with
      | Some v => Ok v
      | None => Raise (KeyError (PStr key))
      end
  | _ => Raise TypeError
  end.

(** [v == 0] and [v == s] for a string [s], as Python compares values of
    different types. *)
Definition py_eq_zero (v : pyval) : bool :=
  match v with
  | PInt z => bool_decide (z = 0)
  | PBool b => negb b
  | PFloat f => PrimFloat.eqb f PrimFloat.zero
  | _ => false
  end.

Definition py_eq_str (v : pyval) (s : string) : bool :=
  match v with
  | PStr a => bool_decide (a = s)
  | _ => false
  end.

(** A registry is a dictionary with string keys whose order of insertion
    matters. *)
Fixpoint registry_find {V} (reg : list (string * V)) (name : string) : option V :=
  match reg with
  | [] => None
  | (k, v) :: reg' => if decide (k = name) then Some v else registry_find reg' name
  end.

(** [reg[key]] for a key read from the header: a list or a dictionary cannot
    be hashed, anything else that is not a registered name is a missing key. *)
Definition registry_get {V} (reg : list (string * V)) (key : pyval) : result V :=
  match key with
  | PStr name =>
      match registry_find reg name with
      | Some v => Ok v
      | None => Raise (KeyError key)
      end
  | PList _ | PDict _ => Raise TypeError
  | _ => Raise (KeyError key)
  end.

(** ** Container header *)

Definition MAGIC : bytes := ["Q"; "D"; "S"; "X"]%byte.
Definition VERSION : Z := 2.

(** The errors of the specification's taxonomy that the engine raises, each
    a [RuntimeError] with its message. *)
Definition HeaderTooSmall : exn := RuntimeError "Blob too small for QDSX header".
Definition BadMagic : exn := RuntimeError "Bad QDSX magic".
Definition CorruptHeaderLength : exn := RuntimeError "Corrupt QDSX header length".
Definition NoViableStrategy : exn :=
  RuntimeError "No working transform/codec combo for file".
Definition IntegrityFailure : exn := RuntimeError "QDSX integrity fail on self-check".
Definition ChecksumMismatch : exn := RuntimeError "Checksum mismatch while unpacking".

Definition codec : Type := (bytes → result bytes) * (bytes → result bytes).

(** What [qdsx_unpack] returns: the restored bytes when [return_bytes] is
    set, the path it wrote them to otherwise. *)
Inductive unpacked :=
| Restored (raw : bytes)
| Written (out : string).

(** A candidate of the strategy search: transform name, codec name and
    compressed bytes. *)
Definition candidate : Type := string * string * bytes.

(** The state of the search: [best_size] with [best_key] ([None] before the
    first success), and the failures logged so far. *)
Definition search_state : Type := option (nat * candidate) * list log_event.

Section engine.
Context (P : platform).

Definition CODECS : list (string * codec) :=
  [ ("zlib", (zlib_compress P, zlib_decompress P));
    ("bz2",  (bz2_compress P,  bz2_decompress P));
    ("lzma", (lzma_compress P, lzma_decompress P)) ].

Definition encode_header (header : pyval) : result bytes :=
  let hdr := json_dumps P header in
  version ← struct_pack_I VERSION;
  hlen ← struct_pack_I (Z.of_nat (length hdr));
  Ok (MAGIC ++ version ++ hlen ++ hdr).

Definition parse_header (blob : bytes) : result (Z * pyval * bytes) :=
  if decide (length blob < 12)%nat then Raise HeaderTooSmall
  else if decide (take 4 blob ≠ MAGIC) then Raise BadMagic
  else
    version ← struct_unpack_I (take 4 (drop 4 blob));
    hlen ← struct_unpack_I (take 4 (drop 8 blob));
    if decide (12 + hlen > Z.of_nat (length blob)) then Raise CorruptHeaderLength
    else
      let hdr_json := take (Z.to_nat hlen) (drop 12 blob) in
      header ← json_loads P hdr_json;
      let cdata := drop (12 + Z.to_nat hlen) blob in
      Ok (version, header, cdata).

(** ** Unpack *)

(** The body of [qdsx_unpack] between the parse and the return: from the
    header and the compressed payload to the verified bytes. *)
Definition restore (header : pyval) (cdata : bytes) : result bytes :=
  tname ← dict_get_default header "transform" (PStr "none");
  cname ← dict_get_default header "codec" (PStr "none");
  orig_size ← dict_get_default header "orig_size" (PInt 0);
  raw ← (if py_eq_zero orig_size && py_eq_str cname "none" then Ok []
         else
           c ← registry_get CODECS cname;
           t ← registry_get TRANSFORMS tname;
           d ← c.2 cdata;
           t.2 d);
  stored ← dict_getitem header "orig_sha256";
  if negb (py_eq_str stored (sha256_bytes P raw)) then Raise ChecksumMismatch
  else Ok raw.

Definition qdsx_unpack (qpath : string) (return_bytes : bool) : io unpacked :=
  blob ← read_file qpath;
  '(_, header, cdata) ← io_lift (parse_header blob);
  raw ← io_lift (restore header cdata);
  if return_bytes then mret (Restored raw)
  else
    let out := with_suffix_empty P qpath in
    _ ← write_file out raw;
    _ ← log (LogUnpack qpath out);
    mret (Written out).

(** ** Pack *)

(** One pass of the inner loop. *)
Definition try_codec (path tname : string) (tdata : bytes)
    (st : search_state) (entry : string * codec) : search_state :=
  let '(cname, (enc, _)) := entry in
  match enc tdata with
  | Raise _ => (st.1, st.2 ++ [LogCodecFail cname path tname])
  | Ok cdata =>
      let size := length cdata in
      match st.1 with
      | None => (Some (size, (tname, cname, cdata)), st.2)
      | Some (best_size, _) =>
          if (size <? best_size)%nat then (Some (size, (tname, cname, cdata)), st.2)
          else st
      end
  end.

(** One pass of the outer loop. *)
Definition try_transform (path : string) (raw : bytes)
    (st : search_state) (entry : string * transform) : search_state :=
  let '(tname, (tf, _)) := entry in
  match tf raw with
  | Raise _ => (st.1, st.2 ++ [LogTransformFail tname path])
  | Ok tdata => foldl (try_codec path tname tdata) st CODECS
  end.

Definition strategy_search (path : string) (raw : bytes) : search_state :=
  foldl (try_transform path raw) (None, []) TRANSFORMS.

Definition make_header (path : string) (orig_size : nat) (orig_sha tname cname ts : string)
    : pyval :=
  PDict (list_to_map
    [ ("version", PInt VERSION);
      ("orig_name", PStr (basename P path));
      ("orig_size", PInt (Z.of_nat orig_size));
      ("orig_sha256", PStr orig_sha);
      ("transform", PStr tname);
      ("codec", PStr cname);
      ("timestamp", PStr ts) ]).

(** The branch of [qdsx_pack] for an empty file. *)
Definition pack_empty (path : string) : io string :=
  ts ← strftime;
  let header := make_header path 0 (sha256_bytes P []) "none" "none" ts in
  blob ← io_lift (encode_header header);
  let outpath := path +:+ ".qdsx" in
  _ ← write_file outpath blob;
  _ ← log (LogPackEmpty path outpath);
  mret outpath.

(** Search, selection, serialisation and the write of the artifact. *)
Definition pack_artifact (path : string) (raw : bytes) : io (string * candidate) :=
  let orig_sha := sha256_bytes P raw in
  let '(best, failures) := strategy_search path raw in
  _ ← log_all failures;
  match best with
  | None => io_raise NoViableStrategy
  | Some (best_size, (tname, cname, cdata)) =>
      ts ← strftime;
      let header := make_header path (length raw) orig_sha tname cname ts in
      hdr ← io_lift (encode_header header);
      let blob := hdr ++ cdata in
      let outpath := path +:+ ".qdsx" in
      _ ← write_file outpath blob;
      mret (outpath, (tname, cname, cdata))
  end.

(** The self-check: the artifact is read back through [qdsx_unpack]. *)
Definition self_check (outpath : string) (raw : bytes) : io unit :=
  restored ← qdsx_unpack outpath true;
  match restored with
  | Restored r => if decide (r = raw) then mret () else io_raise IntegrityFailure
  | Written _ => io_raise IntegrityFailure
  end.

Definition qdsx_pack (path : string) : io string :=
  raw ← read_file path;
  match raw with
  | [] => pack_empty path
  | _ :: _ =>
      '(outpath, (tname, cname, _)) ← pack_artifact path raw;
      _ ← self_check outpath raw;
      _ ← log (LogPack path outpath tname cname);
      mret outpath
  end.
End engine.

(** * Notions the statements are written in *)

(** ** Orders *)

(** [x] may stand before [y] under the comparison [ltb]: [y < x] does not
    hold. *)
Definition not_after {A : Type} (ltb : A → A → bool) (x y : A) : Prop := ltb y x = false.

(** The order on bytes, on byte strings, and on the tuples of [first]. *)
Definition byte_le (a b : byte) : Prop := byte_ltb b a = false.
Definition bytes_le (x y : bytes) : Prop := bytes_ltb y x = false.
Definition pair_le (p q : byte * nat) : Prop := pair_ltb q p = false.

(** ** The counting loops of [bwt_inverse] *)

(** How often [b] occurs among the first [i] entries of [l]. *)
Definition rank_before (b : byte) (l : bytes) (i : nat) : nat :=
  length (filter (eq b) (take i l)).

Definition pos_first_entry (c : nat * ((byte * nat) * nat)) : (byte * nat) * nat :=
  ((c.2.1.1, c.2.2), c.1).

(** ** Rotations and the sorted rotation matrix *)

(** Rotating a string right by one position; the first and last byte of a
    string ([x00] for the empty one, which never matters). *)
Definition rotr (x : bytes) : bytes :=
  match last x with Some c => c :: removelast x | None => [] end.
Definition hdb (x : bytes) : byte := default x00 (head x).
Definition lastb (x : bytes) : byte := default x00 (last x).

(** The rotation before rotation [i], cyclically. *)
Definition rot_pred (n i : nat) : nat := if decide (i = 0)%nat then (n - 1)%nat else (i - 1)%nat.

(** The start positions in the order [bwt_transform] sorts them, and the
    rotations in that order. *)
Definition bwt_order (data : bytes) : list nat :=
  py_sorted (λ i j, bytes_ltb (rot_key data i) (rot_key data j)) (seq 0 (length data)).

Definition bwt_matrix (data : bytes) : list bytes := rot_key data <$> bwt_order data.

(** What the walk of [bwt_inverse] needs of [LF]: every row is sent to its
    rotation. *)
Definition lf_correct (data : bytes) (LF : list nat) : Prop :=
  ∀ r x, bwt_matrix data !! r = Some x →
    ∃ idx, LF !! r = Some idx ∧ bwt_matrix data !! idx = Some (rotr x).

(** ** Inputs and readings the transforms are compared with *)

(** A string of [N] bytes [x01] followed by one [x00]: its rotations are all
    different and rotation 0 is the largest of them. *)
Definition ones_zero (N : nat) : bytes := replicate N x01 ++ [x00].

(** The byte before position [i], as an integer; 0 before the first. *)
Definition prev_byte (l : bytes) (i : nat) : Z :=
  match i with
  | O => 0
  | S j => byte_to_Z (default x00 (l !! j))
  end.

Definition Z_sum (l : list Z) : Z := foldr Z.add 0 l.

(** The forward filter as the specification words it: the difference is
    taken from the previous output byte. *)
Fixpoint spec_delta_feedback (prev_out : Z) (data : bytes) : bytes :=
  match data with
  | [] => []
  | b :: rest =>
      let out := (byte_to_Z b - prev_out) mod 256 in
      byte_of_Z out :: spec_delta_feedback out rest
  end.

(** The inverse a name is registered with. *)
Definition registered_inverse (name : string) (payload : bytes) : result bytes :=
  match registry_find TRANSFORMS name with
  | Some t => t.2 payload
  | None => Raise (KeyError (PStr name))
  end.

(** ** The strategy search *)

(** The comparison at the heart of the search, on successful candidates
    only. *)
Definition keep_smaller (best : option (nat * candidate)) (c : candidate)
    : option (nat * candidate) :=
  let size := length c.2 in
  match best with
  | None => Some (size, c)
  | Some (best_size, _) => if (size <? best_size)%nat then Some (size, c) else best
  end.

(** [c] is the earliest element of [l] of minimal size. *)
Definition first_min (l : list candidate) (c : candidate) : Prop :=
  ∃ pre post, l = pre ++ c :: post
    ∧ Forall (λ x : candidate, length c.2 < length x.2)%nat pre
    ∧ Forall (λ x : candidate, length c.2 ≤ length x.2)%nat post.

(** The candidates that succeed, in the order the loops meet them. *)
Definition codec_candidates (P : platform) (tname : string) (tdata : bytes)
    : list candidate :=
  CODECS P ≫= λ '(cname, (enc, _)),
    match enc tdata with
    | Ok cdata => [(tname, cname, cdata)]
    | Raise _ => []
    end.

Definition candidates (P : platform) (raw : bytes) : list candidate :=
  TRANSFORMS ≫= λ '(tname, (tf, _)),
    match tf raw with
    | Ok tdata => codec_candidates P tname tdata
    | Raise _ => []
    end.

(** ** Pack and unpack *)

(** What [qdsx_unpack] restores from the bytes of an artifact. *)
Definition unpack_bytes (P : platform) (blob : bytes) : result bytes :=
  '(_, header, cdata) ← parse_header P blob;
  restore P header cdata.

(** Two platforms that differ in their entropy coders at most. *)
Definition same_but_codecs (P P' : platform) : Prop :=
  sha256_bytes P = sha256_bytes P' ∧ json_dumps P = json_dumps P'
  ∧ json_loads P = json_loads P' ∧ basename P = basename P'.

(** The header of the artifact of an empty file, and the world after it
    has been written and logged. *)
Definition empty_header (P : platform) (path : string) (w : world) : pyval :=
  make_header P path 0 (sha256_bytes P []) "none" "none" (clock w).

Definition after_pack_empty (path : string) (blob : bytes) (w : world) : world :=
  {| files := <[path +:+ ".qdsx" := blob]> (files w);
     clock := clock w;
     log_lines := log_lines w ++ [LogPackEmpty path (path +:+ ".qdsx")] |}.

(** ** A small platform to run the engine on *)

(** [zlib] stores its input, [bz2] stores it behind one byte, [lzma] always
    raises, the digest spells the bytes out, and the JSON layer writes
    nothing and reads every metadata block as the one value [parsed]. *)
Definition demo_platform (parsed : pyval) : platform :=
  {| zlib_compress := λ b, Ok b;
     zlib_decompress := λ b, Ok b;
     bz2_compress := λ b, Ok (x00 :: b);
     bz2_decompress := λ b, Ok (drop 1 b);
     lzma_compress := λ _, Raise (LibraryError "lzma");
     lzma_decompress := λ _, Raise (LibraryError "lzma");
     sha256_bytes := String.string_of_list_byte;
     json_dumps := λ _, [];
     json_loads := λ _, Ok parsed;
     basename := id;
     with_suffix_empty := id |}.

Definition demo_world (path : string) (content : bytes) : world :=
  {| files := {[ path := content ]}; clock := "2026-01-01T00:00:00Z"; log_lines := [] |}.

Definition aaa : bytes := ["a"; "a"; "a"]%byte.
Definition ab : bytes := ["a"; "b"]%byte.

(** The metadata of the artifact of an empty file [f], and of the file [g]
    holding [aaa], for which the search selects [rle] with [zlib]. *)
Definition demo_empty_header : pyval :=
  empty_header (demo_platform PNone) "f" (demo_world "f" []).

Definition demo_header : pyval :=
  make_header (demo_platform PNone) "g" 3 (String.string_of_list_byte aaa)
    "rle" "zlib" "2026-01-01T00:00:00Z".

(** Metadata that name the transform [none] and carry the digest of the
    compressed payload of [g]: an artifact that passes the checksum and yet
    does not restore [aaa]. *)
Definition demo_wrong_header : pyval :=
  make_header (demo_platform PNone) "g" 3
    (String.string_of_list_byte ["a"%byte; x03]) "none" "zlib" "2026-01-01T00:00:00Z".

(** Metadata with a given transform and codec name, for a payload that
    restores to the empty string. *)
Definition named_header (tname cname : string) : gmap string pyval :=
  list_to_map
    [ ("transform", PStr tname); ("codec", PStr cname); ("orig_size", PInt 1);
      ("orig_sha256", PStr (String.string_of_list_byte [])) ].

(** Metadata without [transform] and without [codec]. *)
Definition nameless_header : gmap string pyval :=
  list_to_map
    [ ("orig_size", PInt 0); ("orig_sha256", PStr (String.string_of_list_byte [])) ].

(** Metadata of the empty-payload case without the stored hash. *)
Definition hashless_header : gmap string pyval :=
  list_to_map
    [ ("transform", PStr "none"); ("codec", PStr "none"); ("orig_size", PInt 0) ].

(** Blobs for the header parser: three bytes; twelve bytes that do not start
    with the magic; a prefix that declares five bytes of metadata where one
    is left; a prefix that declares two bytes of metadata, followed by them
    and by two bytes of payload; and a prefix with no metadata bytes and no
    payload. *)
Definition blob_short : bytes := ["Q"; "D"; "S"]%byte.
Definition blob_bad_magic : bytes :=
  ["Q"; "D"; "S"; "Y"]%byte ++ [x00; x00; x00; x02; x00; x00; x00; x00].
Definition blob_oversized : bytes :=
  MAGIC ++ [x00; x00; x00; x02; x00; x00; x00; x05] ++ ["{"]%byte.
Definition blob_good : bytes :=
  MAGIC ++ [x00; x00; x00; x02; x00; x00; x00; x02] ++ ["{"; "}"]%byte ++ [xaa; xbb].
Definition blob_bare : bytes :=
  MAGIC ++ [x00; x00; x00; x02; x00; x00; x00; x00].

(** ** Runs *)

(** A list of runs [(b, k)] written as the pair stream of [tf_rle], and
    expanded as [itf_rle] expands it. *)
Definition rle_pairs (runs : list (byte * nat)) : bytes :=
  runs ≫= λ '(b, k), [b; byte_of_nat k].

Definition rle_expand (runs : list (byte * nat)) : bytes :=
  runs ≫= λ '(b, k), replicate k b.

(** ** More inputs for the engine *)

(** Metadata of the empty-payload case as a JSON writer other than
    [qdsx_pack] could leave them: [orig_size] is [false], the codec is
    missing, and the transform is not a registered one. *)
Definition falsy_header : gmap string pyval :=
  list_to_map
    [ ("transform", PStr "bogus"); ("orig_size", PBool false);
      ("orig_sha256", PStr (String.string_of_list_byte [])) ].

(** A platform on which every entropy coder raises. *)
Definition failing_platform : platform :=
  {| zlib_compress := λ _, Raise (LibraryError "zlib");
     zlib_decompress := λ _, Raise (LibraryError "zlib");
     bz2_compress := λ _, Raise (LibraryError "bz2");
     bz2_decompress := λ _, Raise (LibraryError "bz2");
     lzma_compress := λ _, Raise (LibraryError "lzma");
     lzma_decompress := λ _, Raise (LibraryError "lzma");
     sha256_bytes := String.string_of_list_byte;
     json_dumps := λ _, [];
     json_loads := λ _, Ok PNone;
     basename := id;
     with_suffix_empty := id |}.

(** A platform whose JSON reader knows one document, the empty object, and
    rejects every other input the way [json.loads] rejects the lone brace
    [{]: with [JSONDecodeError], a [ValueError].  Its coders are the
    identity. *)
Definition json_platform : platform :=
  {| zlib_compress := λ b, Ok b;
     zlib_decompress := λ b, Ok b;
     bz2_compress := λ b, Ok b;
     bz2_decompress := λ b, Ok b;
     lzma_compress := λ b, Ok b;
     lzma_decompress := λ b, Ok b;
     sha256_bytes := String.string_of_list_byte;
     json_dumps := λ _, ["{"; "}"]%byte;
     json_loads := λ b, if decide (b = ["{"; "}"]%byte) then Ok (PDict ∅)
                        else Raise ValueError;
     basename := id;
     with_suffix_empty := id |}.

(** A blob with the magic, version 2, one declared byte of metadata, the
    lone brace, and one byte of payload: it passes the three checks of
    [parse_header], and its metadata are not JSON. *)
Definition blob_unreadable : bytes :=
  MAGIC ++ [x00; x00; x00; x02; x00; x00; x00; x01] ++ ["{"]%byte ++ [xaa].

(** Metadata of a one-byte payload [a] without [codec] and [transform], and
    with the codec [zlib] and no [transform]. *)
Definition codecless_header : gmap string pyval :=
  list_to_map
    [ ("orig_size", PInt 1); ("orig_sha256", PStr (String.string_of_list_byte ["a"%byte])) ].

Definition transformless_header : gmap string pyval :=
  list_to_map
    [ ("codec", PStr "zlib"); ("orig_size", PInt 1);
      ("orig_sha256", PStr (String.string_of_list_byte ["a"%byte])) ].

(** ** Worlds *)

(** The world after lines have been appended to the log, and after a file
    has been written. *)
Definition logged (es : list log_event) (w : world) : world :=
  {| files := files w; clock := clock w; log_lines := log_lines w ++ es |}.

Definition with_file (path : string) (b : bytes) (w : world) : world :=
  {| files := <[path := b]> (files w); clock := clock w; log_lines := log_lines w |}.

(** * Properties *)

(** ** The result monad *)

Lemma bind_Ok {A B} (f : A → result B) (a : A) : Ok a ≫= f = f a.
Proof. reflexivity. Qed.

Lemma bind_Ok_inv {A B} (f : A → result B) (m : result A) (b : B) :
  m ≫= f = Ok b → ∃ a, m = Ok a ∧ f a = Ok b.
Proof. destruct m as [a|e]; [eauto | discriminate]. Qed.

Lemma py_index_Ok {A} (l : list A) (i : nat) (x : A) :
  py_index l i = Ok x ↔ l !! i = Some x.
Proof. unfold py_index. destruct (l !! i); split; congruence. Qed.

Lemma index_of_Ok `{EqDecision A} (x : A) (l : list A) :
  x ∈ l → ∃ i, index_of x l = Ok i ∧ l !! i = Some x ∧ (i < length l)%nat.
Proof.
  induction l as [|y l IH]; intros Hin.
  - by apply elem_of_nil in Hin.
  - simpl. destruct (decide (y = x)) as [->|Hne].
    + exists 0%nat. repeat split; simpl; lia.
    + apply elem_of_cons in Hin as [?|Hin]; [congruence|].
      destruct (IH Hin) as (i & -> & Hi & Hlt).
      exists (S i). repeat split; simpl; [done | lia].
Qed.

Lemma traverse_Ok_map {A B} (f : A → result B) (g : A → B) (l : list A) :
  (∀ x, x ∈ l → f x = Ok (g x)) → traverse f l = Ok (g <$> l).
Proof.
  induction l as [|x l IH]; intros Hf; [done|].
  simpl. rewrite (Hf x) by left. simpl.
  rewrite IH; [done|]. intros y Hy. apply Hf. by right.
Qed.

(** ** Bytes and integers *)

Lemma byte_to_Z_range (b : byte) : 0 ≤ byte_to_Z b < 256.
Proof. unfold byte_to_Z. pose proof (Byte.to_N_bounded b). lia. Qed.

Lemma byte_of_to_Z (b : byte) : byte_of_Z (byte_to_Z b) = b.
Proof.
  unfold byte_of_Z, byte_to_Z. rewrite N2Z.id, Byte.of_to_N. reflexivity.
Qed.

Lemma byte_to_of_Z (z : Z) : 0 ≤ z < 256 → byte_to_Z (byte_of_Z z) = z.
Proof.
  intros Hz. unfold byte_of_Z, byte_to_Z.
  destruct (Byte.of_N (Z.to_N z)) as [b|] eqn:Hb.
  - simpl. apply Byte.to_of_N in Hb. lia.
  - exfalso. apply Byte.of_N_None_iff in Hb. lia.
Qed.

Lemma byte_to_Z_inj (a b : byte) : byte_to_Z a = byte_to_Z b → a = b.
Proof. intros H. rewrite <- (byte_of_to_Z a), <- (byte_of_to_Z b). by rewrite H. Qed.

Lemma byte_to_nat_range (b : byte) : (byte_to_nat b < 256)%nat.
Proof. unfold byte_to_nat. pose proof (Byte.to_N_bounded b). lia. Qed.

Lemma byte_to_of_nat (n : nat) : (n < 256)%nat → byte_to_nat (byte_of_nat n) = n.
Proof.
  intros Hn. unfold byte_of_nat.
  assert (H := byte_to_of_Z (Z.of_nat n)).
  unfold byte_to_Z in H. unfold byte_to_nat. lia.
Qed.

Lemma byte_of_to_nat (b : byte) : byte_of_nat (byte_to_nat b) = b.
Proof.
  unfold byte_of_nat, byte_to_nat. rewrite <- (byte_of_to_Z b) at 2.
  f_equal. unfold byte_to_Z. lia.
Qed.

Lemma land_255 (z : Z) : Z.land z 255 = z mod 256.
Proof. change 255 with (Z.ones 8). rewrite Z.land_ones by lia. reflexivity. Qed.

(** ** Delta *)

Lemma delta_loop_roundtrip (data : bytes) (prev : Z) :
  0 ≤ prev < 256 → itf_delta_loop prev (tf_delta_loop prev data) = data.
Proof.
  revert prev. induction data as [|b rest IH]; intros prev Hp; [done|].
  simpl. pose proof (byte_to_Z_range b) as Hb.
  rewrite !land_255.
  rewrite byte_to_of_Z by (apply Z.mod_pos_bound; lia).
  assert (((byte_to_Z b - prev) mod 256 + prev) mod 256 = byte_to_Z b) as ->.
  { rewrite Zplus_mod_idemp_l. replace (byte_to_Z b - prev + prev) with (byte_to_Z b) by lia.
    apply Z.mod_small. lia. }
  rewrite byte_of_to_Z. f_equal. by apply IH.
Qed.

Lemma delta_roundtrip (data : bytes) : itf_delta (tf_delta data) = data.
Proof. apply delta_loop_roundtrip. lia. Qed.

(** ** Run-length coding *)

Lemma rle_run_roundtrip (rest : bytes) (b : byte) (run : nat) :
  (1 ≤ run ≤ 255)%nat →
  itf_rle (tf_rle_run b run rest) = replicate run b ++ rest.
Proof.
  revert b run. induction rest as [|x rest IH]; intros b run Hrun; simpl.
  - rewrite byte_to_of_nat by lia. by rewrite app_nil_r.
  - case_bool_decide as Hx; simpl.
    + destruct (Nat.ltb_spec run 255) as [Hlt|Hge].
      * subst x. rewrite IH by lia.
        rewrite replicate_S_end, <- app_assoc. reflexivity.
      * simpl. rewrite byte_to_of_nat by lia. rewrite IH by lia. reflexivity.
    + rewrite byte_to_of_nat by lia. rewrite IH by lia. reflexivity.
Qed.

Lemma rle_roundtrip (data : bytes) : itf_rle (tf_rle data) = data.
Proof.
  destruct data as [|b rest]; [done|].
  unfold tf_rle. rewrite rle_run_roundtrip by lia. reflexivity.
Qed.

(** ** Move-to-front *)

Lemma alphabet0_full (b : byte) : b ∈ alphabet0.
Proof.
  apply list_elem_of_lookup. exists (byte_to_nat b).
  unfold alphabet0. rewrite list_lookup_fmap.
  rewrite lookup_seq_lt by apply byte_to_nat_range.
  simpl. by rewrite byte_of_to_nat.
Qed.

Lemma alphabet0_length : length alphabet0 = 256%nat.
Proof. reflexivity. Qed.

Lemma move_to_front_full (alphabet : bytes) (b : byte) (idx : nat) :
  alphabet !! idx = Some b →
  (∀ c, c ∈ alphabet) → ∀ c, c ∈ b :: delete idx alphabet.
Proof.
  intros Hidx Hall c. destruct (decide (c = b)) as [->|Hne]; [left|].
  right. specialize (Hall c). apply list_elem_of_lookup in Hall as [j Hj].
  apply list_elem_of_lookup.
  destruct (decide (j < idx)%nat).
  - exists j. by rewrite list_lookup_delete_lt.
  - assert (j ≠ idx) by congruence.
    exists (j - 1)%nat. rewrite list_lookup_delete_ge by lia.
    replace (S (j - 1)) with j by lia. done.
Qed.

Lemma move_to_front_length (alphabet : bytes) (b : byte) (idx : nat) :
  (idx < length alphabet)%nat →
  length (b :: delete idx alphabet) = length alphabet.
Proof. intros Hlt. simpl. rewrite length_delete; [lia|]. by apply lookup_lt_is_Some_2. Qed.

Lemma mtf_loop_roundtrip (data alphabet : bytes) :
  (∀ c, c ∈ alphabet) → length alphabet = 256%nat →
  ∃ out, mtf_encode_loop alphabet data = Ok out ∧
         mtf_decode_loop alphabet out = Ok data.
Proof.
  revert alphabet. induction data as [|b rest IH]; intros alphabet Hall Hlen.
  - by exists [].
  - simpl. destruct (index_of_Ok b alphabet (Hall b)) as (idx & -> & Hidx & Hlt).
    simpl.
    destruct (IH (b :: delete idx alphabet)) as (out & -> & Hdec).
    { by apply move_to_front_full. }
    { rewrite move_to_front_length; done. }
    exists (byte_of_nat idx :: out). split; [done|].
    simpl. rewrite byte_to_of_nat by lia.
    unfold py_index. rewrite Hidx. simpl. rewrite Hdec. reflexivity.
Qed.

Lemma mtf_roundtrip (data : bytes) :
  ∃ out, mtf_encode data = Ok out ∧ mtf_decode out = Ok data.
Proof. apply mtf_loop_roundtrip; [apply alphabet0_full | apply alphabet0_length]. Qed.

(** ** The 4-byte big-endian prefix *)

Lemma lor_shiftl_small (hi lo k : Z) :
  0 ≤ k → 0 ≤ lo < 2 ^ k → Z.lor (Z.shiftl hi k) lo = hi * 2 ^ k + lo.
Proof.
  intros Hk Hlo. rewrite <- Z.add_nocarry_lor.
  - rewrite Z.shiftl_mul_pow2 by done. reflexivity.
  - apply Z.bits_inj'. intros n Hn. rewrite Z.land_spec, Z.bits_0.
    destruct (Z.lt_ge_cases n k) as [Hlt|Hge].
    + rewrite Z.shiftl_spec_low by done. reflexivity.
    + destruct (decide (lo = 0)) as [->|Hne].
      * rewrite Z.bits_0. apply andb_false_r.
      * rewrite (Z.bits_above_log2 lo n); [apply andb_false_r | lia |].
        assert (Z.log2 lo < k) by (apply Z.log2_lt_pow2; lia). lia.
Qed.

Lemma struct_pack_unpack (n : Z) :
  0 ≤ n < 2 ^ 32 →
  ∃ b, struct_pack_I n = Ok b ∧ length b = 4%nat ∧ struct_unpack_I b = Ok n.
Proof.
  intros Hn. unfold struct_pack_I. rewrite decide_True by done.
  eexists. split; [reflexivity|]. split; [reflexivity|].
  unfold struct_unpack_I. f_equal.
  rewrite !land_255.
  rewrite !byte_to_of_Z by (apply Z.mod_pos_bound; lia).
  rewrite !Z.shiftr_div_pow2 by lia.
  change (2 ^ 32) with 4294967296 in Hn.
  change (2 ^ 24) with 16777216. change (2 ^ 16) with 65536. change (2 ^ 8) with 256.
  pose proof (Z.mod_pos_bound n 256 ltac:(lia)).
  pose proof (Z.mod_pos_bound (n / 256) 256 ltac:(lia)).
  pose proof (Z.mod_pos_bound (n / 65536) 256 ltac:(lia)).
  pose proof (Z.mod_pos_bound (n / 16777216) 256 ltac:(lia)).
  rewrite (lor_shiftl_small _ (n mod 256) 8) by lia.
  rewrite (lor_shiftl_small _ _ 16) by lia.
  rewrite (lor_shiftl_small _ _ 24) by lia.
  change (2 ^ 24) with 16777216. change (2 ^ 16) with 65536. change (2 ^ 8) with 256.
  assert (n / 16777216 < 256) by (apply Z.div_lt_upper_bound; lia).
  rewrite (Z.mod_small (n / 16777216)) by (split; [apply Z.div_pos; lia | lia]).
  pose proof (Z.div_mod n 256 ltac:(lia)).
  pose proof (Z.div_mod (n / 256) 256 ltac:(lia)).
  pose proof (Z.div_mod (n / 65536) 256 ltac:(lia)).
  replace (n / 65536) with (n / 256 / 256) in * by (rewrite Z.div_div by lia; done).
  replace (n / 16777216) with (n / 256 / 256 / 256) in * by (rewrite !Z.div_div by lia; done).
  lia.
Qed.

(** ** Sorting *)

Section sorting.
Context {A : Type} (ltb : A → A → bool).

Hypothesis ltb_asym : ∀ x y, ltb x y = true → ltb y x = false.
Hypothesis not_after_trans : ∀ x y z, (not_after ltb) x y → (not_after ltb) y z → (not_after ltb) x z.

Lemma insert_sorted_perm (x : A) (l : list A) : insert_sorted ltb x l ≡ₚ x :: l.
Proof using Type.
  induction l as [|y l IH]; simpl; [done|].
  destruct (ltb y x); [|done].
  rewrite IH. apply Permutation_swap.
Qed.

Lemma py_sorted_perm (l : list A) : py_sorted ltb l ≡ₚ l.
Proof using Type.
  induction l as [|x l IH]; simpl; [done|].
  rewrite insert_sorted_perm. by rewrite IH.
Qed.

Lemma py_sorted_length (l : list A) : length (py_sorted ltb l) = length l.
Proof using Type. by rewrite py_sorted_perm. Qed.

Lemma insert_sorted_HdRel (a x : A) (l : list A) :
  (not_after ltb) a x → HdRel (not_after ltb) a l → HdRel (not_after ltb) a (insert_sorted ltb x l).
Proof using Type.
  intros Hax Hal. destruct l as [|y l]; simpl; [by constructor|].
  destruct (ltb y x); constructor; [|done].
  by apply HdRel_inv in Hal.
Qed.

Lemma insert_sorted_Sorted (x : A) (l : list A) :
  Sorted (not_after ltb) l → Sorted (not_after ltb) (insert_sorted ltb x l).
Proof using ltb_asym.
  induction 1 as [|y l Hl IH Hhd]; simpl.
  - by repeat constructor.
  - destruct (ltb y x) eqn:Hyx.
    + constructor; [done|]. apply insert_sorted_HdRel; [|done].
      by apply ltb_asym.
    + constructor; [by constructor|]. by constructor.
Qed.

Lemma py_sorted_Sorted (l : list A) : Sorted (not_after ltb) (py_sorted ltb l).
Proof using ltb_asym.
  induction l as [|x l IH]; simpl; [constructor|].
  by apply insert_sorted_Sorted.
Qed.

Lemma py_sorted_StronglySorted (l : list A) :
  StronglySorted (not_after ltb) (py_sorted ltb l).
Proof using ltb_asym not_after_trans.
  apply Sorted_StronglySorted; [|apply py_sorted_Sorted].
  intros x y z. apply not_after_trans.
Qed.
End sorting.

(** ** The order on bytes and byte strings *)

Lemma byte_ltb_lt (a b : byte) : byte_ltb a b = true ↔ byte_to_Z a < byte_to_Z b.
Proof. unfold byte_ltb, byte_to_Z. rewrite N.ltb_lt. lia. Qed.

Lemma byte_ltb_ge (a b : byte) : byte_ltb a b = false ↔ byte_to_Z b ≤ byte_to_Z a.
Proof. unfold byte_ltb, byte_to_Z. rewrite N.ltb_ge. lia. Qed.

#[global] Instance byte_le_trans : Transitive byte_le.
Proof. intros a b c. unfold byte_le. rewrite !byte_ltb_ge. lia. Qed.

#[global] Instance byte_le_antisym : AntiSymm eq byte_le.
Proof.
  intros a b. unfold byte_le. rewrite !byte_ltb_ge. intros ??.
  apply byte_to_Z_inj. lia.
Qed.

Lemma bytes_ltb_cons (a b : byte) (x y : bytes) :
  bytes_ltb (a :: x) (b :: y) =
  if byte_ltb a b then true else if byte_ltb b a then false else bytes_ltb x y.
Proof. reflexivity. Qed.

Ltac byte_cases a b :=
  let H1 := fresh "Hlt" in let H2 := fresh "Hgt" in
  destruct (byte_ltb a b) eqn:H1; destruct (byte_ltb b a) eqn:H2;
  try (apply byte_ltb_lt in H1); try (apply byte_ltb_lt in H2);
  try (apply byte_ltb_ge in H1); try (apply byte_ltb_ge in H2);
  try lia.

Lemma bytes_ltb_irrefl (x : bytes) : bytes_ltb x x = false.
Proof.
  induction x as [|a x IH]; [done|].
  rewrite bytes_ltb_cons. byte_cases a a. done.
Qed.

Lemma bytes_ltb_asym (x y : bytes) : bytes_ltb x y = true → bytes_ltb y x = false.
Proof.
  revert y. induction x as [|a x IH]; intros [|b y]; try done.
  rewrite !bytes_ltb_cons. byte_cases a b; try done. apply IH.
Qed.

#[global] Instance bytes_le_trans : Transitive bytes_le.
Proof.
  unfold bytes_le. intros x. induction x as [|a x IH]; intros [|b y] [|c z]; try done.
  rewrite !bytes_ltb_cons.
  byte_cases b a; try done; byte_cases c b; try done; byte_cases c a; try done.
  apply IH.
Qed.

#[global] Instance bytes_le_antisym : AntiSymm eq bytes_le.
Proof.
  unfold bytes_le. intros x. induction x as [|a x IH]; intros [|b y]; try done.
  rewrite !bytes_ltb_cons. byte_cases b a; try done.
  intros ??. f_equal; [apply byte_to_Z_inj; lia | by apply IH].
Qed.

Lemma bytes_le_refl (x : bytes) : bytes_le x x.
Proof. apply bytes_ltb_irrefl. Qed.

Lemma bytes_le_cons (a b : byte) (x y : bytes) :
  bytes_le (a :: x) (b :: y) ↔
  byte_to_Z a < byte_to_Z b ∨ (a = b ∧ bytes_le x y).
Proof.
  unfold bytes_le. rewrite bytes_ltb_cons. byte_cases b a.
  - split; [done|]. intros [?|[? ?]]; [lia | subst; lia].
  - split.
    + intros ?. right. split; [apply byte_to_Z_inj; lia | done].
    + intros [?|[? ?]]; [lia | done].
Qed.

(** Dropping the last byte of two equally long strings keeps their order. *)
Lemma bytes_le_removelast (x y : bytes) :
  length x = length y → bytes_le x y → bytes_le (removelast x) (removelast y).
Proof.
  revert y. induction x as [|a x IH]; intros [|b y] Hlen; try done.
  intros Hle. apply bytes_le_cons in Hle.
  destruct x as [|a' x], y as [|b' y]; try done.
  change (removelast (a :: a' :: x)) with (a :: removelast (a' :: x)).
  change (removelast (b :: b' :: y)) with (b :: removelast (b' :: y)).
  apply bytes_le_cons. destruct Hle as [?|[-> Hle]]; [by left|].
  right. split; [done|]. apply IH; [simpl in *; lia | done].
Qed.

Lemma bytes_le_head (a b : byte) (x y : bytes) :
  bytes_le (a :: x) (b :: y) → byte_le a b.
Proof.
  intros Hle. apply bytes_le_cons in Hle. unfold byte_le. apply byte_ltb_ge.
  destruct Hle as [?|[-> _]]; lia.
Qed.

Lemma pair_ltb_asym (p q : byte * nat) : pair_ltb p q = true → pair_ltb q p = false.
Proof.
  unfold pair_ltb. byte_cases p.1 q.1; try done.
  rewrite Nat.ltb_lt, Nat.ltb_ge. lia.
Qed.

#[global] Instance pair_le_trans : Transitive pair_le.
Proof.
  unfold pair_le, pair_ltb. intros p q r.
  byte_cases q.1 p.1; try done; byte_cases r.1 q.1; try done;
    byte_cases r.1 p.1; try done.
  rewrite !Nat.ltb_ge. lia.
Qed.

Lemma pair_le_fst (p q : byte * nat) : pair_le p q → byte_le p.1 q.1.
Proof.
  unfold pair_le, pair_ltb, byte_le. byte_cases q.1 p.1; try done.
  all: intros _; apply byte_ltb_ge; lia.
Qed.

(** ** Lists: filtering and counting occurrences *)

Section filtering.
Context {A : Type} (P : A → Prop) `{!∀ x, Decision (P x)}.

Lemma filter_fmap_comm {B} (f : B → A) (l : list B) :
  filter P (f <$> l) = f <$> filter (λ y, P (f y)) l.
Proof.
  induction l as [|y l IH]; [done|].
  rewrite fmap_cons, !filter_cons.
  destruct (decide (P (f y))); rewrite ?fmap_cons, IH; done.
Qed.

Lemma StronglySorted_filter (R : relation A) (l : list A) :
  StronglySorted R l → StronglySorted R (filter P l).
Proof.
  induction 1 as [|x l Hl IH Hx]; [constructor|].
  rewrite filter_cons. destruct (decide (P x)); [|done].
  constructor; [done|]. rewrite Forall_forall in *.
  intros y [_ Hy]%list_elem_of_filter. by apply Hx.
Qed.

(** The element at position [i], when it satisfies [P], sits in the
    filtered list at the number of [P]-elements before [i]. *)
Lemma filter_lookup_rank (l : list A) (i : nat) (x : A) :
  l !! i = Some x → P x →
  filter P l !! length (filter P (take i l)) = Some x.
Proof.
  intros Hi HP. pose proof (take_drop_middle l i x Hi) as Hsplit.
  set (pre := take i l) in *. set (post := drop (S i) l) in *.
  rewrite <- Hsplit, filter_app, filter_cons, decide_True by done.
  rewrite lookup_app_r by done. by rewrite Nat.sub_diag.
Qed.

Lemma filter_rank_lt (l : list A) (i : nat) (x : A) :
  l !! i = Some x → P x →
  (length (filter P (take i l)) < length (filter P l))%nat.
Proof.
  intros Hi HP. apply lookup_lt_is_Some. eexists. by eapply filter_lookup_rank.
Qed.

(** Conversely every rank below the number of [P]-elements is taken. *)
Lemma filter_rank_exists (l : list A) (k : nat) :
  (k < length (filter P l))%nat →
  ∃ i x, l !! i = Some x ∧ P x ∧ length (filter P (take i l)) = k.
Proof.
  revert k. induction l as [|y l IH]; intros k Hk; [simpl in Hk; lia|].
  rewrite filter_cons in Hk. destruct (decide (P y)) as [Hy|Hy].
  - destruct k as [|k].
    + exists 0%nat, y. done.
    + simpl in Hk. destruct (IH k) as (i & x & ? & ? & Hlen); [lia|].
      exists (S i), x. split_and!; [done..|].
      simpl. rewrite filter_cons, decide_True by done. simpl. by rewrite Hlen.
  - destruct (IH k Hk) as (i & x & ? & ? & Hlen).
    exists (S i), x. split_and!; [done..|].
    simpl. by rewrite filter_cons, decide_False.
Qed.
End filtering.

(** ** The counting loops of [bwt_inverse] *)

Lemma occ_loop_length (l : bytes) (count_map : gmap byte nat) :
  length (occ_loop count_map l) = length l.
Proof.
  revert count_map. induction l as [|a l IH]; intros cm; simpl; [done|].
  by rewrite IH.
Qed.

Lemma occ_loop_lookup (l : bytes) (count_map : gmap byte nat) (r : nat) (b : byte) :
  l !! r = Some b →
  occ_loop count_map l !! r =
    Some (default 0 (count_map !! b) + rank_before b l r + 1)%nat.
Proof.
  unfold rank_before.
  revert count_map r. induction l as [|a l IH]; intros cm r Hr; [done|].
  destruct r as [|r]; simpl in *.
  - injection Hr as ->. f_equal. lia.
  - rewrite (IH _ _ Hr). f_equal. rewrite filter_cons.
    destruct (decide (b = a)) as [->|Hne].
    + rewrite lookup_insert_eq. simpl. lia.
    + rewrite lookup_insert_ne by done. lia.
Qed.

(** The dictionary built by a loop of stores holds, under every key it
    has, a value stored under that key, and it has every key stored. *)
Lemma foldl_store_lookup `{Countable K} {V C} (kv : C → K * V)
    (l : list C) (m0 : gmap K V) (k : K) (v : V) :
  foldl (λ m c, <[(kv c).1 := (kv c).2]> m) m0 l !! k = Some v →
  m0 !! k = Some v ∨ ∃ c, c ∈ l ∧ kv c = (k, v).
Proof.
  revert m0. induction l as [|c l IH]; intros m0; simpl; [by left|].
  intros Hk. apply IH in Hk as [Hk|(c' & ? & ?)].
  - destruct (decide ((kv c).1 = k)) as [Heq|Hne].
    + rewrite Heq, lookup_insert_eq in Hk. right. exists c. split; [left|].
      destruct (kv c); simpl in *. congruence.
    + rewrite lookup_insert_ne in Hk by done. by left.
  - right. exists c'. split; [by right | done].
Qed.

Lemma foldl_store_is_Some `{Countable K} {V C} (kv : C → K * V)
    (l : list C) (m0 : gmap K V) (k : K) :
  is_Some (m0 !! k) ∨ (∃ c, c ∈ l ∧ (kv c).1 = k) →
  is_Some (foldl (λ m c, <[(kv c).1 := (kv c).2]> m) m0 l !! k).
Proof.
  revert m0. induction l as [|c l IH]; intros m0; simpl.
  - intros [?|(c & Hc & _)]; [done|]. by apply elem_of_nil in Hc.
  - intros Hk. apply IH.
    destruct (decide ((kv c).1 = k)) as [Heq|Hne].
    + left. rewrite Heq, lookup_insert_eq. eauto.
    + rewrite lookup_insert_ne by done.
      destruct Hk as [?|(c' & Hc' & ?)]; [by left|].
      apply elem_of_cons in Hc' as [->|?]; [done|]. right. eauto.
Qed.

Lemma enumerate_lookup {A} (l : list A) (i : nat) (x : A) :
  enumerate l !! i = Some (i, x) ↔ l !! i = Some x.
Proof.
  unfold enumerate. rewrite lookup_zip_with_Some. split.
  - intros (j & y & [= -> ->] & _ & ?). done.
  - intros Hi. exists i, x. split_and!; [done| |done].
    apply lookup_seq. split; [done|]. by eapply lookup_lt_Some.
Qed.

Lemma elem_of_enumerate {A} (l : list A) (i : nat) (x : A) :
  (i, x) ∈ enumerate l ↔ l !! i = Some x.
Proof.
  rewrite list_elem_of_lookup. split.
  - intros [j Hj]. unfold enumerate in Hj.
    apply lookup_zip_with_Some in Hj as (i' & y & [= -> ->] & Hs & ?).
    apply lookup_seq in Hs as [-> _]. done.
  - intros Hi. exists i. by apply enumerate_lookup.
Qed.

Lemma pos_first_loop_fold (first : list (byte * nat)) (occ_first : list nat) :
  pos_first_loop first occ_first =
  foldl (λ m c, <[(pos_first_entry c).1 := (pos_first_entry c).2]> m) ∅
        (enumerate (zip first occ_first)).
Proof.
  unfold pos_first_loop. generalize (∅ : gmap (byte * nat) nat).
  induction (enumerate (zip first occ_first)) as [|[idx [p k]] l IH]; intros m; [done|].
  simpl. apply IH.
Qed.

Lemma pos_first_lookup (first : list (byte * nat)) (occ_first : list nat)
    (b : byte) (k idx : nat) :
  pos_first_loop first occ_first !! (b, k) = Some idx →
  (fst <$> first) !! idx = Some b ∧ occ_first !! idx = Some k.
Proof.
  rewrite pos_first_loop_fold. intros Hl.
  apply foldl_store_lookup in Hl as [Hl|([i [p k']] & Hin & Heq)]; [done|].
  apply elem_of_enumerate in Hin. apply lookup_zip_with_Some in Hin
    as (p' & k'' & [= <- <-] & Hp & Hk).
  unfold pos_first_entry in Heq. simpl in Heq. injection Heq as <- <- <-.
  rewrite list_lookup_fmap, Hp. done.
Qed.

Lemma pos_first_is_Some (first : list (byte * nat)) (occ_first : list nat)
    (b : byte) (k idx : nat) :
  (fst <$> first) !! idx = Some b → occ_first !! idx = Some k →
  is_Some (pos_first_loop first occ_first !! (b, k)).
Proof.
  rewrite pos_first_loop_fold. intros Hb Hk.
  rewrite list_lookup_fmap in Hb.
  destruct (first !! idx) as [p|] eqn:Hp; [|done]. injection Hb as <-.
  apply foldl_store_is_Some. right. exists (idx, (p, k)). split; [|done].
  apply elem_of_enumerate. apply lookup_zip_with_Some. eauto 6.
Qed.

(** ** Rotations *)

Lemma rotr_snoc (l : bytes) (c : byte) : rotr (l ++ [c]) = c :: l.
Proof. unfold rotr. by rewrite last_snoc, removelast_last. Qed.

Lemma hdb_rotr (x : bytes) : hdb (rotr x) = lastb x.
Proof. unfold hdb, lastb, rotr. by destruct (last x). Qed.

Lemma rotr_length (x : bytes) : length (rotr x) = length x.
Proof.
  destruct (last x) as [c|] eqn:Hx.
  - apply last_Some in Hx as [l ->]. rewrite rotr_snoc, length_app. simpl. lia.
  - apply last_None in Hx as ->. done.
Qed.

Lemma rot_key_length (data : bytes) (i : nat) :
  length (rot_key data i) = length data.
Proof. unfold rot_key. rewrite length_app, length_drop, length_take. lia. Qed.

Lemma rot_key_0 (data : bytes) : rot_key data 0 = data.
Proof. unfold rot_key. by rewrite drop_0, take_0, app_nil_r. Qed.

Lemma rot_key_all (data : bytes) : rot_key data (length data) = data.
Proof. unfold rot_key. by rewrite drop_all, firstn_all. Qed.

Lemma rot_key_S (data : bytes) (i : nat) (c : byte) :
  data !! i = Some c →
  rot_key data (S i) = (drop (S i) data ++ take i data) ++ [c].
Proof.
  intros Hi. unfold rot_key. rewrite (take_S_r _ _ _ Hi). by rewrite app_assoc.
Qed.

Lemma rotr_rot_key_S (data : bytes) (i : nat) :
  (i < length data)%nat → rotr (rot_key data (S i)) = rot_key data i.
Proof.
  intros Hi. destruct (lookup_lt_is_Some_2 _ _ Hi) as [c Hc].
  rewrite (rot_key_S _ _ _ Hc), rotr_snoc. unfold rot_key.
  by rewrite (drop_S _ _ _ Hc).
Qed.

Lemma lastb_rot_key_S (data : bytes) (i : nat) (c : byte) :
  data !! i = Some c → lastb (rot_key data (S i)) = c.
Proof. intros Hi. unfold lastb. by rewrite (rot_key_S _ _ _ Hi), last_snoc. Qed.

Lemma rotr_rot_key (data : bytes) (i : nat) :
  (i < length data)%nat →
  rotr (rot_key data i) = rot_key data (rot_pred (length data) i).
Proof.
  intros Hi. unfold rot_pred. destruct (decide (i = 0)%nat) as [->|Hne].
  - rewrite rot_key_0. rewrite <- (rot_key_all data) at 1.
    replace (length data) with (S (length data - 1)) at 1 by lia.
    apply rotr_rot_key_S. lia.
  - replace i with (S (i - 1)) at 1 by lia. apply rotr_rot_key_S. lia.
Qed.

Lemma rot_pred_seq (n : nat) : rot_pred n <$> seq 0 n ≡ₚ seq 0 n.
Proof.
  destruct n as [|m]; [done|].
  rewrite seq_S at 2. simpl. rewrite <- fmap_S_seq, <- list_fmap_compose.
  rewrite (list_fmap_ext _ id (seq 0 m)).
  - rewrite list_fmap_id. unfold rot_pred. simpl. rewrite Nat.sub_0_r.
    by rewrite Permutation_cons_append.
  - intros i x _. unfold rot_pred. simpl. lia.
Qed.

(** The byte [bwt_transform] stores for rotation [i]. *)
Lemma last_col_entry (data : bytes) (i : nat) :
  (i < length data)%nat →
  (if decide (i ≠ 0)%nat then py_index data (i - 1)
   else py_index data (length data - 1)) = Ok (lastb (rot_key data i)).
Proof.
  intros Hi. destruct (decide (i ≠ 0)%nat) as [Hne|Heq].
  - destruct (lookup_lt_is_Some_2 data (i - 1)) as [c Hc]; [lia|].
    unfold py_index. rewrite Hc. f_equal.
    replace i with (S (i - 1)) at 1 by lia. symmetry. by apply lastb_rot_key_S.
  - assert (i = 0)%nat as -> by lia.
    destruct (lookup_lt_is_Some_2 data (length data - 1)) as [c Hc]; [lia|].
    unfold py_index. rewrite Hc. f_equal.
    rewrite rot_key_0. rewrite <- (rot_key_all data) at 1.
    replace (length data) with (S (length data - 1)) at 1 by lia.
    symmetry. by apply lastb_rot_key_S.
Qed.

(** ** The sorted rotation matrix *)

Section matrix.
Variable data : bytes.
Let n := length data.
Let M := bwt_matrix data.

Lemma bwt_order_perm : bwt_order data ≡ₚ seq 0 n.
Proof. apply py_sorted_perm. Qed.

Lemma bwt_order_lt (i : nat) : i ∈ bwt_order data → (i < n)%nat.
Proof. rewrite bwt_order_perm, elem_of_seq. lia. Qed.

Lemma bwt_matrix_length : length M = n.
Proof. unfold M, bwt_matrix. by rewrite length_fmap, bwt_order_perm, length_seq. Qed.

Lemma bwt_matrix_sorted : StronglySorted bytes_le M.
Proof.
  unfold M, bwt_matrix.
  apply (StronglySorted_fmap _ (λ i j, bytes_le (rot_key data i) (rot_key data j))).
  { done. }
  apply (py_sorted_StronglySorted
           (λ i j, bytes_ltb (rot_key data i) (rot_key data j))).
  - intros i j. apply bytes_ltb_asym.
  - intros i j k. unfold not_after. apply bytes_le_trans.
Qed.

Lemma bwt_matrix_row_length (x : bytes) : x ∈ M → length x = n.
Proof.
  unfold M, bwt_matrix. intros (i & -> & _)%list_elem_of_fmap.
  apply rot_key_length.
Qed.

Lemma bwt_matrix_rotr : rotr <$> M ≡ₚ M.
Proof.
  unfold M, bwt_matrix. rewrite !bwt_order_perm.
  rewrite <- list_fmap_compose.
  rewrite (list_fmap_ext _ (rot_key data ∘ rot_pred n) (seq 0 n)).
  - rewrite list_fmap_compose. by rewrite rot_pred_seq.
  - intros i x Hx. simpl. apply rotr_rot_key.
    apply lookup_seq in Hx. fold n. lia.
Qed.
End matrix.

(** ** First and last column *)

Lemma hdb_mono (x y : bytes) : bytes_le x y → byte_le (hdb x) (hdb y).
Proof.
  destruct x as [|a x], y as [|b y]; simpl; try done.
  - intros _. unfold byte_le. apply byte_ltb_ge.
    change (byte_to_Z (hdb [])) with 0. apply byte_to_Z_range.
  - apply bytes_le_head.
Qed.

Lemma rotr_mono (x y : bytes) :
  length x = length y → lastb x = lastb y → bytes_le x y →
  bytes_le (rotr x) (rotr y).
Proof.
  intros Hlen Hlast Hle.
  destruct (last x) as [c|] eqn:Hx.
  - destruct (last y) as [c'|] eqn:Hy.
    + unfold lastb in Hlast. rewrite Hx, Hy in Hlast. simpl in Hlast. subst c'.
      unfold rotr. rewrite Hx, Hy. apply bytes_le_cons. right. split; [done|].
      by apply bytes_le_removelast.
    + apply last_None in Hy as ->. destruct x; [done | simpl in Hlen; lia].
  - apply last_None in Hx as ->. destruct y; [|simpl in Hlen; lia].
    apply bytes_le_refl.
Qed.

Lemma rotr_filter_sorted (b : byte) (n : nat) (l : list bytes) :
  StronglySorted bytes_le l → Forall (λ x, length x = n) l →
  StronglySorted bytes_le (rotr <$> filter (λ x, lastb x = b) l).
Proof.
  induction 1 as [|x l Hl IH Hx]; intros Hn; [constructor|].
  apply Forall_cons in Hn as [Hxn Hn].
  rewrite filter_cons. destruct (decide (lastb x = b)) as [Hb|Hb]; [|by apply IH].
  rewrite fmap_cons. constructor; [by apply IH|].
  rewrite Forall_forall in *. intros y' (y & -> & Hy)%list_elem_of_fmap.
  apply list_elem_of_filter in Hy as [Hyb Hy].
  apply rotr_mono; [|congruence|by apply Hx].
  rewrite Hxn. symmetry. by apply Hn.
Qed.

Section columns.
Variable data : bytes.
Let n := length data.
Let M := bwt_matrix data.
Let L := lastb <$> M.
Let F := hdb <$> M.

(** The rows that start with [b] are, in order, the rotations of the rows
    that end with [b]. *)
Lemma bwt_matrix_first_last (b : byte) :
  filter (λ x, hdb x = b) M = rotr <$> filter (λ x, lastb x = b) M.
Proof.
  apply (StronglySorted_unique bytes_le).
  - apply StronglySorted_filter, bwt_matrix_sorted.
  - apply (rotr_filter_sorted b n); [apply bwt_matrix_sorted|].
    apply Forall_forall. apply bwt_matrix_row_length.
  - unfold M. rewrite <- (bwt_matrix_rotr data) at 1.
    rewrite filter_fmap_comm.
    rewrite (list_filter_iff _ (λ x, lastb x = b)); [done|].
    intros x. by rewrite hdb_rotr.
Qed.

Lemma last_column_perm_first : F ≡ₚ L.
Proof.
  unfold F, L, M. rewrite <- (bwt_matrix_rotr data) at 1.
  rewrite <- list_fmap_compose.
  rewrite (list_fmap_ext _ lastb M); [done|].
  intros _ x _. apply hdb_rotr.
Qed.

(** [first], projected to its bytes, is the first column of the matrix. *)
Lemma first_column :
  fst <$> py_sorted pair_ltb (prod_swap <$> enumerate L) = F.
Proof.
  apply (StronglySorted_unique byte_le).
  - apply (StronglySorted_fmap _ pair_le); [apply pair_le_fst|].
    apply (py_sorted_StronglySorted pair_ltb).
    + apply pair_ltb_asym.
    + intros p q r. apply pair_le_trans.
  - apply (StronglySorted_fmap _ bytes_le); [apply hdb_mono|].
    apply bwt_matrix_sorted.
  - rewrite py_sorted_perm, last_column_perm_first.
    rewrite <- list_fmap_compose.
    rewrite (list_fmap_ext _ snd (enumerate L)) by (by intros ? []).
    unfold enumerate. rewrite snd_zip; [done|]. by rewrite length_seq.
Qed.

Lemma rank_before_column (f : bytes → byte) (b : byte) (i : nat) :
  rank_before b (f <$> M) i = length (filter (λ x, f x = b) (take i M)).
Proof.
  unfold rank_before. rewrite <- fmap_take, filter_fmap_comm, length_fmap.
  f_equal. apply list_filter_iff. intros x. split; congruence.
Qed.

(** Matching the [k]-th [b] of the last column with the [k]-th [b] of the
    first column leads from a row to its rotation. *)
Lemma lf_step (r idx : nat) (x : bytes) (b : byte) :
  M !! r = Some x → lastb x = b →
  F !! idx = Some b → rank_before b F idx = rank_before b L r →
  M !! idx = Some (rotr x).
Proof.
  intros Hr Hb Hidx Hrank.
  unfold F in Hidx. rewrite list_lookup_fmap in Hidx.
  destruct (M !! idx) as [y|] eqn:Hy; [|done]. injection Hidx as Hyb.
  f_equal.
  pose proof (filter_lookup_rank (λ x, hdb x = b) M idx y Hy Hyb) as H1.
  pose proof (filter_lookup_rank (λ x, lastb x = b) M r x Hr Hb) as H2.
  unfold F, L in Hrank. rewrite !rank_before_column in Hrank.
  rewrite Hrank, bwt_matrix_first_last, list_lookup_fmap, H2 in H1.
  simpl in H1. congruence.
Qed.

Lemma lf_entry (r : nat) (x : bytes) :
  M !! r = Some x →
  let first := py_sorted pair_ltb (prod_swap <$> enumerate L) in
  ∃ idx,
    (b ← py_index L r; k ← py_index (occ_loop ∅ L) r;
     dict_get (pos_first_loop first (occ_loop ∅ (fst <$> first))) (b, k)) = Ok idx
    ∧ M !! idx = Some (rotr x).
Proof using Type.
  intros Hr first. set (b := lastb x).
  assert (L !! r = Some b) as HLr.
  { unfold L. by rewrite list_lookup_fmap, Hr. }
  rewrite (proj2 (py_index_Ok _ _ _) HLr). simpl.
  rewrite (proj2 (py_index_Ok _ _ _) (occ_loop_lookup _ ∅ _ _ HLr)), lookup_empty.
  simpl.
  unfold first. rewrite first_column.
  (* the rank is taken in the first column *)
  destruct (filter_rank_exists (eq b) F (rank_before b L r)) as (i & b' & Hi & <- & Hrank).
  { rewrite last_column_perm_first.
    exact (filter_rank_lt (eq b) L r b HLr eq_refl). }
  fold (rank_before b F i) in Hrank.
  destruct (pos_first_is_Some (py_sorted pair_ltb (prod_swap <$> enumerate L))
              (occ_loop ∅ F) b (rank_before b L r + 1) i) as [idx Hidx].
  { by rewrite first_column. }
  { rewrite (occ_loop_lookup _ _ _ _ Hi), lookup_empty. simpl. by rewrite Hrank. }
  exists idx. unfold dict_get. rewrite Hidx. split; [done|].
  apply pos_first_lookup in Hidx as [HF Hocc]. rewrite first_column in HF.
  rewrite (occ_loop_lookup _ _ _ _ HF), lookup_empty in Hocc. simpl in Hocc.
  apply (lf_step r idx x b); [done..|].
  injection Hocc as Hocc. lia.
Qed.
Hypothesis Hn : n ≠ 0%nat.

Lemma bwt_transform_Ok :
  ∃ primary,
    index_of 0%nat (bwt_order data) = Ok primary
    ∧ bwt_transform data = Ok (L, primary)
    ∧ M !! primary = Some data.
Proof using Hn.
  unfold bwt_transform. rewrite decide_False by done.
  fold (bwt_order data).
  destruct (index_of_Ok 0%nat (bwt_order data)) as (primary & -> & Hp & _).
  { rewrite bwt_order_perm, elem_of_seq. fold n. lia. }
  exists primary. simpl. split; [done|].
  rewrite (traverse_Ok_map _ (λ i, lastb (rot_key data i))).
  - simpl. split.
    + unfold L, M, bwt_matrix. by rewrite <- list_fmap_compose.
    + unfold M, bwt_matrix. rewrite list_lookup_fmap, Hp. simpl.
      by rewrite rot_key_0.
  - intros i Hi. apply last_col_entry. by apply bwt_order_lt.
Qed.
End columns.

(** ** Inverting the transform *)

Lemma traverse_Ok_Forall2 {A B} (f : A → result B) (Q : A → B → Prop) (l : list A) :
  (∀ x, x ∈ l → ∃ y, f x = Ok y ∧ Q x y) →
  ∃ ys, traverse f l = Ok ys ∧ Forall2 Q l ys.
Proof.
  induction l as [|x l IH]; intros Hf.
  - exists []. split; [done | constructor].
  - destruct (Hf x) as (y & Hy & HQ); [left|].
    destruct IH as (ys & Hys & HQs).
    { intros z Hz. apply Hf. by right. }
    exists (y :: ys). simpl. rewrite Hy. simpl. rewrite Hys. simpl.
    split; [done | by constructor].
Qed.

Section inverse.
Variable data : bytes.
Let n := length data.
Let M := bwt_matrix data.
Let L := lastb <$> M.

Lemma lf_traverse :
  let first := py_sorted pair_ltb (prod_swap <$> enumerate L) in
  ∃ LF,
    traverse (λ r, b ← py_index L r; k ← py_index (occ_loop ∅ L) r;
                   dict_get (pos_first_loop first (occ_loop ∅ (fst <$> first))) (b, k))
             (seq 0 n) = Ok LF
    ∧ lf_correct data LF.
Proof.
  intros first.
  destruct (traverse_Ok_Forall2
    (λ r, b ← py_index L r; k ← py_index (occ_loop ∅ L) r;
          dict_get (pos_first_loop first (occ_loop ∅ (fst <$> first))) (b, k))
    (λ r idx, ∀ x, M !! r = Some x → M !! idx = Some (rotr x))
    (seq 0 n)) as (LF & HLF & HQ).
  { intros r Hr. apply elem_of_seq in Hr.
    destruct (lookup_lt_is_Some_2 M r) as [x Hx].
    { unfold M. rewrite bwt_matrix_length. fold n. lia. }
    destruct (lf_entry data r x Hx) as (idx & Hidx & Hrot).
    exists idx. split; [exact Hidx|]. intros x' Hx'.
    rewrite Hx in Hx'. by injection Hx' as <-. }
  exists LF. split; [done|]. intros r x Hx.
  assert (seq 0 n !! r = Some r) as Hr.
  { apply lookup_seq. split; [done|].
    apply lookup_lt_Some in Hx. unfold M in Hx. rewrite bwt_matrix_length in Hx.
    done. }
  destruct (Forall2_lookup_l _ _ _ _ _ HQ Hr) as (idx & Hidx & Hrot).
  exists idx. split; [done|]. by apply Hrot.
Qed.

Lemma bwt_walk_Ok (LF : list nat) :
  lf_correct data LF →
  ∀ (k : nat) (res : bytes) (r : nat),
    (k ≤ n)%nat → length res = n →
    M !! r = Some (rot_key data k) →
    drop k res = drop k data →
    bwt_walk L LF res r (reverse (seq 0 k)) = Ok data.
Proof.
  intros HLF. induction k as [|k IH]; intros res r Hk Hlen Hr Hdrop.
  - simpl. rewrite !drop_0 in Hdrop. by subst.
  - rewrite seq_S, reverse_snoc. simpl.
    destruct (lookup_lt_is_Some_2 data k) as [c Hc]; [fold n; lia|].
    assert (L !! r = Some c) as HLr.
    { unfold L. rewrite list_lookup_fmap, Hr. simpl.
      f_equal. by apply lastb_rot_key_S. }
    rewrite (proj2 (py_index_Ok _ _ _) HLr). simpl.
    destruct (HLF r _ Hr) as (idx & Hidx & Hrot).
    rewrite (proj2 (py_index_Ok _ _ _) Hidx). simpl.
    rewrite rotr_rot_key_S in Hrot by (fold n; lia).
    apply IH; [lia | by rewrite length_insert | done |].
    rewrite (drop_S data c k Hc).
    rewrite (drop_S (<[k:=c]> res) c k).
    + f_equal. rewrite drop_insert_lt by lia. done.
    + apply list_lookup_insert_eq. lia.
Qed.

Lemma bwt_inverse_Ok (primary : nat) :
  n ≠ 0%nat → M !! primary = Some data → bwt_inverse L primary = Ok data.
Proof.
  intros Hn Hp. unfold bwt_inverse.
  assert (length L = n) as HL.
  { unfold L, M. by rewrite length_fmap, bwt_matrix_length. }
  rewrite HL, decide_False by done.
  destruct lf_traverse as (LF & -> & HLF). simpl.
  apply bwt_walk_Ok; [done | done | by rewrite length_replicate | |].
  - by rewrite rot_key_all.
  - rewrite !drop_ge; [done | done | by rewrite length_replicate].
Qed.
End inverse.

(** [bwt_inverse] undoes [bwt_transform], whatever ties the rotations have. *)
Lemma bwt_roundtrip (data : bytes) :
  ∃ last_col primary,
    bwt_transform data = Ok (last_col, primary)
    ∧ (primary ≤ length data - 1)%nat
    ∧ bwt_inverse last_col primary = Ok data.
Proof.
  destruct (decide (length data = 0%nat)) as [Hn|Hn].
  - apply nil_length_inv in Hn as ->. exists [], 0%nat. done.
  - destruct (bwt_transform_Ok data Hn) as (primary & _ & Htf & Hp).
    eexists _, primary. split; [exact Htf|]. split.
    + apply lookup_lt_Some in Hp. rewrite bwt_matrix_length in Hp. lia.
    + by apply bwt_inverse_Ok.
Qed.

(** ** The composite transform *)

Lemma bwt_mtf_rle_roundtrip (data : bytes) :
  Z.of_nat (length data) ≤ 2 ^ 32 →
  ∃ payload, tf_bwt_mtf_rle data = Ok payload ∧ itf_bwt_mtf_rle payload = Ok data.
Proof.
  intros Hlen. unfold tf_bwt_mtf_rle.
  destruct (bwt_roundtrip data) as (last_col & primary & -> & Hp & Hinv). simpl.
  destruct (mtf_roundtrip last_col) as (mtf & -> & Hmtf). simpl.
  destruct (struct_pack_unpack (Z.of_nat primary)) as (pre & -> & Hpre & Hun); [lia|].
  simpl. eexists. split; [reflexivity|].
  unfold itf_bwt_mtf_rle.
  rewrite decide_False by (rewrite length_app; lia).
  rewrite take_app_length' by done. rewrite Hun. simpl.
  rewrite drop_app_length' by done.
  rewrite rle_roundtrip, Hmtf. simpl. by rewrite Nat2Z.id.
Qed.

(** ** The limit of the 4-byte prefix *)

Lemma ones_zero_rot_key (N i : nat) :
  (i ≤ N)%nat →
  rot_key (ones_zero N) i = replicate (N - i) x01 ++ x00 :: replicate i x01.
Proof.
  intros Hi. unfold rot_key, ones_zero.
  rewrite drop_app_le, take_app_le by (rewrite length_replicate; lia).
  rewrite drop_replicate, take_replicate, Nat.min_l by lia.
  by rewrite <- app_assoc.
Qed.

Lemma bytes_ltb_after_run (a : nat) (c : byte) (u v : bytes) :
  bytes_ltb (replicate a c ++ x00 :: u) (replicate a c ++ x01 :: v) = true.
Proof.
  induction a as [|a IH]; [done|].
  simpl replicate. simpl app. rewrite bytes_ltb_cons.
  assert (byte_ltb c c = false) as -> by (apply byte_ltb_ge; lia).
  exact IH.
Qed.

Lemma ones_zero_rot_lt (N i j : nat) :
  (j < i ≤ N)%nat →
  bytes_ltb (rot_key (ones_zero N) i) (rot_key (ones_zero N) j) = true.
Proof.
  intros Hij. rewrite !ones_zero_rot_key by lia.
  replace (N - j)%nat with ((N - i) + S (i - j - 1))%nat by lia.
  rewrite replicate_add, <- app_assoc. simpl replicate. simpl app.
  apply bytes_ltb_after_run.
Qed.

Lemma ones_zero_order (N : nat) : bwt_order (ones_zero N) = reverse (seq 0 (S N)).
Proof.
  set (R := λ i j : nat,
    bytes_le (rot_key (ones_zero N) i) (rot_key (ones_zero N) j)).
  assert (length (ones_zero N) = S N) as Hlen.
  { unfold ones_zero. rewrite length_app, length_replicate. simpl. lia. }
  apply (StronglySorted_unique_strong R).
  - intros i j Hi Hj Hij Hji.
    rewrite bwt_order_perm, Hlen, elem_of_seq in Hi.
    rewrite elem_of_reverse, elem_of_seq in Hj.
    destruct (decide (i = j)) as [|Hne]; [done|]. exfalso.
    unfold R, bytes_le in *.
    destruct (decide (i < j)%nat).
    + rewrite ones_zero_rot_lt in Hij by lia. done.
    + rewrite ones_zero_rot_lt in Hji by lia. done.
  - apply (py_sorted_StronglySorted
             (λ i j, bytes_ltb (rot_key (ones_zero N) i) (rot_key (ones_zero N) j))).
    + intros i j. apply bytes_ltb_asym.
    + intros i j k. unfold not_after. apply bytes_le_trans.
  - assert (∀ m, (m ≤ S N)%nat → StronglySorted R (reverse (seq 0 m))) as Hs.
    { induction m as [|m IH]; intros Hm; [constructor|].
      rewrite seq_S, reverse_snoc. constructor; [apply IH; lia|].
      apply Forall_forall. intros j Hj.
      rewrite elem_of_reverse, elem_of_seq in Hj.
      unfold R, bytes_le. apply bytes_ltb_asym. apply ones_zero_rot_lt. simpl. lia. }
    by apply Hs.
  - rewrite bwt_order_perm, Hlen. by rewrite reverse_Permutation.
Qed.

Lemma index_of_snoc `{EqDecision A} (x : A) (l : list A) :
  x ∉ l → index_of x (l ++ [x]) = Ok (length l).
Proof.
  induction l as [|y l IH]; intros Hx; simpl.
  - by rewrite decide_True.
  - apply not_elem_of_cons in Hx as [Hne Hx].
    rewrite decide_False by done. by rewrite IH.
Qed.

Lemma ones_zero_primary (N : nat) :
  ∃ last_col, bwt_transform (ones_zero N) = Ok (last_col, N).
Proof.
  destruct (bwt_transform_Ok (ones_zero N)) as (primary & Hidx & Htf & _).
  { unfold ones_zero. rewrite length_app. simpl. lia. }
  rewrite ones_zero_order in Hidx.
  rewrite <- cons_seq, reverse_cons, index_of_snoc in Hidx.
  - rewrite length_reverse, length_seq in Hidx. injection Hidx as <-. eauto.
  - rewrite elem_of_reverse, elem_of_seq. lia.
Qed.

Lemma tf_bwt_mtf_rle_overflow (N : nat) :
  2 ^ 32 ≤ Z.of_nat N → tf_bwt_mtf_rle (ones_zero N) = Raise StructError.
Proof.
  intros HN. unfold tf_bwt_mtf_rle.
  destruct (ones_zero_primary N) as (last_col & ->). simpl.
  destruct (mtf_roundtrip last_col) as (mtf & -> & _). simpl.
  unfold struct_pack_I. rewrite decide_False by lia. done.
Qed.

(** ** The claims on the transforms *)

Lemma pow_32_nat : 2 ^ 32 ≤ Z.of_nat (2 ^ 32)%nat.
Proof. rewrite Nat2Z.inj_pow. apply Z.leb_le. reflexivity. Qed.

(** C1, counterexample: the forward composite transform raises on the string
    of 2^32 bytes 0x01 followed by one byte 0x00, whose primary index, 2^32,
    does not fit the 4-byte prefix. *)
Lemma C1_composite_raises_beyond_uint32 :
  tf_bwt_mtf_rle (ones_zero (2 ^ 32)%nat) = Raise StructError.
Proof. apply tf_bwt_mtf_rle_overflow. exact pow_32_nat. Qed.

(** C1, as the code has it: every registered transform, followed by its registered
    inverse, returns the input exactly, for every byte string (the empty one
    and runs of one byte included); for [bwt_mtf_rle] the string has at most
    2^32 bytes.  BWT followed by its inverse reconstructs every string, ties
    among the rotations or not. *)
Theorem C1_transforms_roundtrip :
  (∀ (name : string) (fwd inv : bytes → result bytes) (s : bytes),
     (name, (fwd, inv)) ∈ TRANSFORMS →
     (name = "bwt_mtf_rle" → Z.of_nat (length s) ≤ 2 ^ 32) →
     ∃ t, fwd s = Ok t ∧ inv t = Ok s)
  ∧ (∀ s : bytes, ∃ last_col primary,
       bwt_transform s = Ok (last_col, primary)
       ∧ bwt_inverse last_col primary = Ok s).
Proof.
  split.
  - intros name fwd inv s Hin Hlen. unfold TRANSFORMS in Hin.
    repeat (apply elem_of_cons in Hin as [[= -> -> ->]|Hin]).
    + exists s. done.
    + exists (tf_delta s). by rewrite delta_roundtrip.
    + exists (tf_rle s). by rewrite rle_roundtrip.
    + apply bwt_mtf_rle_roundtrip. by apply Hlen.
    + by apply elem_of_nil in Hin.
  - intros s. destruct (bwt_roundtrip s) as (last_col & primary & ? & _ & ?).
    eauto.
Qed.

Lemma C1_transforms_roundtrip_witness :
  ∃ t, tf_bwt_mtf_rle (replicate 5 "a"%byte) = Ok t
       ∧ itf_bwt_mtf_rle t = Ok (replicate 5 "a"%byte).
Proof.
  apply (proj1 C1_transforms_roundtrip "bwt_mtf_rle").
  - unfold TRANSFORMS. do 3 right. left.
  - intros _. simpl. lia.
Defined.

(** ** Delta *)

Lemma tf_delta_loop_length (data : bytes) (prev : Z) :
  length (tf_delta_loop prev data) = length data.
Proof.
  revert prev. induction data as [|b rest IH]; intros prev; simpl; [done|].
  by rewrite IH.
Qed.

Lemma tf_delta_loop_lookup (data : bytes) (prev : Z) (i : nat) (b : byte) :
  data !! i = Some b →
  tf_delta_loop prev data !! i =
    Some (byte_of_Z ((byte_to_Z b - match i with O => prev | S _ => prev_byte data i end)
                     mod 256)).
Proof.
  revert prev i. induction data as [|a rest IH]; intros prev i Hi; [done|].
  destruct i as [|i]; simpl in *.
  - injection Hi as ->. by rewrite land_255.
  - rewrite (IH _ _ Hi). destruct i as [|i]; [done|]. reflexivity.
Qed.

Lemma itf_delta_loop_lookup (data : bytes) (prev : Z) (i : nat) :
  (i < length data)%nat →
  itf_delta_loop prev data !! i =
    Some (byte_of_Z ((prev + Z_sum (byte_to_Z <$> take (S i) data)) mod 256)).
Proof.
  revert prev i. induction data as [|a rest IH]; intros prev i Hi; [simpl in Hi; lia|].
  destruct i as [|i].
  - simpl. rewrite land_255. destruct rest; simpl; do 3 f_equal; lia.
  - change (itf_delta_loop prev (a :: rest) !! S i)
      with (itf_delta_loop (Z.land (byte_to_Z a + prev) 255) rest !! i).
    rewrite IH by (simpl in Hi; lia). rewrite land_255.
    f_equal. f_equal.
    change (take (S (S i)) (a :: rest)) with (a :: take (S i) rest).
    rewrite fmap_cons. simpl Z_sum. fold (Z_sum (byte_to_Z <$> take (S i) rest)).
    rewrite Zplus_mod_idemp_l. f_equal. lia.
Qed.

(** C3, counterexample: on the bytes 1, 3, 6 the code emits 1, 2, 3 (each
    byte minus the previous input byte), where the feedback filter of the
    claim gives 1, 2, 4; and the cumulative sum does not invert the latter. *)
Lemma C3_delta_differs_from_feedback :
  tf_delta [x01; x03; x06] = [x01; x02; x03]
  ∧ spec_delta_feedback 0 [x01; x03; x06] = [x01; x02; x04]
  ∧ itf_delta [x01; x02; x04] = [x01; x03; x07].
Proof. repeat split. Qed.

(** C3, as the code has it: byte [i] of the forward delta transform is
    [(in[i] - in[i-1]) mod 256] with [in[-1]] taken as 0, the difference from
    the previous input byte; the inverse is the cumulative sum modulo 256
    seeded with 0; and the pair round-trips on every byte string. *)
Theorem C3_delta_previous_input (data : bytes) :
  length (tf_delta data) = length data
  ∧ (∀ i b, data !! i = Some b →
       tf_delta data !! i = Some (byte_of_Z ((byte_to_Z b - prev_byte data i) mod 256)))
  ∧ (∀ i, (i < length data)%nat →
       itf_delta data !! i =
         Some (byte_of_Z (Z_sum (byte_to_Z <$> take (S i) data) mod 256)))
  ∧ itf_delta (tf_delta data) = data.
Proof.
  split_and!.
  - apply tf_delta_loop_length.
  - intros i b Hi. unfold tf_delta. rewrite (tf_delta_loop_lookup _ _ _ _ Hi).
    by destruct i.
  - intros i Hi. unfold itf_delta. by rewrite itf_delta_loop_lookup.
  - apply delta_roundtrip.
Qed.

Lemma C3_delta_previous_input_witness :
  tf_delta [x01; x03; x06] !! 2%nat = Some x03
  ∧ itf_delta [xff; x02] !! 1%nat = Some x01.
Proof.
  split.
  - apply (proj1 (proj2 (C3_delta_previous_input [x01; x03; x06])) 2%nat x06).
    reflexivity.
  - apply (proj1 (proj2 (proj2 (C3_delta_previous_input [xff; x02]))) 1%nat).
    simpl. lia.
Defined.

(** ** Malformed input to the inverse transforms *)

(** C4, counterexample: the registered RLE inverse returns the empty string
    on a single byte, and the earlier pairs' expansion on three bytes. *)
Lemma C4_rle_odd_input_returns :
  registered_inverse "rle" ["a"%byte] = Ok []
  ∧ registered_inverse "rle" ["a"%byte; x02; "b"%byte] = Ok ["a"%byte; "a"%byte].
Proof. split; reflexivity. Qed.

Lemma itf_rle_snoc (pairs : bytes) (b : byte) :
  Nat.Even (length pairs) → itf_rle (pairs ++ [b]) = itf_rle pairs.
Proof.
  intros [k Hk]. revert pairs Hk. induction k as [|k IH]; intros pairs Hk.
  - destruct pairs; [done | simpl in Hk; lia].
  - destruct pairs as [|a [|run pairs]]; simpl in Hk; try lia.
    simpl. rewrite IH by lia. done.
Qed.

(** C4, as the code has it: on an input of odd length the RLE decoder does not raise;
    it ignores the trailing unpaired byte and returns the expansion of the
    complete pairs before it. *)
Theorem C4_rle_odd_input_ignores_last (pairs : bytes) (b : byte) :
  Nat.Even (length pairs) →
  registered_inverse "rle" (pairs ++ [b]) = Ok (itf_rle pairs).
Proof. intros Heven. unfold registered_inverse. simpl. by rewrite itf_rle_snoc. Qed.

Lemma C4_rle_odd_input_ignores_last_witness :
  registered_inverse "rle" (["a"%byte; x02] ++ ["b"%byte]) = Ok (itf_rle ["a"%byte; x02]).
Proof. apply C4_rle_odd_input_ignores_last. exists 1%nat. reflexivity. Defined.

(** C5, counterexample: the inverse composite transform returns the empty
    string on a payload of one byte (and on the empty payload). *)
Lemma C5_short_payload_returns_empty :
  registered_inverse "bwt_mtf_rle" [x00] = Ok []
  ∧ registered_inverse "bwt_mtf_rle" [] = Ok [].
Proof. split; reflexivity. Qed.

(** C5, as the code has it: on every payload shorter than 4 bytes the inverse
    composite transform returns the empty byte string; it raises nothing. *)
Theorem C5_short_payload_is_empty_result (payload : bytes) :
  (length payload < 4)%nat → registered_inverse "bwt_mtf_rle" payload = Ok [].
Proof.
  intros Hlen. unfold registered_inverse. simpl. unfold itf_bwt_mtf_rle.
  by rewrite decide_True.
Qed.

Lemma C5_short_payload_is_empty_result_witness :
  registered_inverse "bwt_mtf_rle" [x00; x00; x01] = Ok [].
Proof. apply C5_short_payload_is_empty_result. simpl. lia. Defined.

(** ** The strategy search *)

Lemma first_min_le (l : list candidate) (c x : candidate) :
  first_min l c → x ∈ l → (length c.2 ≤ length x.2)%nat.
Proof.
  intros (pre & post & -> & Hpre & Hpost) Hx.
  rewrite Forall_forall in Hpre, Hpost.
  apply elem_of_app in Hx as [Hx|Hx]; [apply Hpre in Hx; lia|].
  apply elem_of_cons in Hx as [->|Hx]; [lia | by apply Hpost].
Qed.

Lemma foldl_keep_smaller_Some (l : list candidate) (c0 : candidate) :
  ∃ c, foldl keep_smaller (Some (length c0.2, c0)) l = Some (length c.2, c)
       ∧ first_min (c0 :: l) c.
Proof.
  revert c0. induction l as [|x l IH]; intros c0.
  - exists c0. split; [done|]. exists [], []. by repeat constructor.
  - simpl. destruct (Nat.ltb_spec (length x.2) (length c0.2)) as [Hlt|Hge].
    + destruct (IH x) as (c & -> & Hmin). exists c. split; [done|].
      pose proof (first_min_le _ _ x Hmin ltac:(left)) as Hle.
      destruct Hmin as (pre & post & Heq & Hpre & Hpost).
      exists (c0 :: pre), post. rewrite Heq. split_and!; [done| |done].
      constructor; [lia | done].
    + destruct (IH c0) as (c & -> & Hmin). exists c. split; [done|].
      destruct Hmin as (pre & post & Heq & Hpre & Hpost).
      destruct pre as [|c0' pre]; simpl in Heq; injection Heq as <- ->.
      * exists [], (x :: post). split_and!; [done|constructor|].
        constructor; [done | done].
      * exists (c0 :: x :: pre), post. split_and!; [done| |done].
        apply Forall_cons in Hpre as [Hc0 Hpre].
        constructor; [done|]. constructor; [lia | done].
Qed.

Lemma foldl_keep_smaller (l : list candidate) :
  match foldl keep_smaller None l with
  | None => l = []
  | Some (size, c) => size = length c.2 ∧ first_min l c
  end.
Proof.
  destruct l as [|x l]; [done|]. simpl.
  destruct (foldl_keep_smaller_Some l x) as (c & -> & Hmin). done.
Qed.

Section search.
Context (P : platform).

Lemma try_codec_best (path tname : string) (tdata : bytes)
    (codecs : list (string * codec)) (st : search_state) :
  (foldl (try_codec path tname tdata) st codecs).1 =
  foldl keep_smaller st.1
    (codecs ≫= λ '(cname, (enc, _)),
       match enc tdata with
       | Ok cdata => [(tname, cname, cdata)]
       | Raise _ => []
       end).
Proof.
  revert st. induction codecs as [|[cname [enc dec]] codecs IH]; intros st; [done|].
  simpl. rewrite IH.
  destruct (enc tdata) as [cdata|e]; simpl; [|done].
  destruct st as [[[best_size best_key]|] failures]; simpl; [|done].
  by destruct (length cdata <? best_size)%nat.
Qed.

Lemma try_transform_best (path : string) (raw : bytes)
    (transforms : list (string * transform)) (st : search_state) :
  (foldl (try_transform P path raw) st transforms).1 =
  foldl keep_smaller st.1
    (transforms ≫= λ '(tname, (tf, _)),
       match tf raw with
       | Ok tdata => codec_candidates P tname tdata
       | Raise _ => []
       end).
Proof.
  revert st. induction transforms as [|[tname [tf itf]] transforms IH]; intros st; [done|].
  cbn [foldl]. rewrite IH, bind_cons, foldl_app. f_equal.
  unfold try_transform at 1. destruct (tf raw) as [tdata|e]; [|done].
  apply try_codec_best.
Qed.

Lemma strategy_search_best (path : string) (raw : bytes) :
  (strategy_search P path raw).1 = foldl keep_smaller None (candidates P raw).
Proof. apply try_transform_best. Qed.
End search.

(** ** The container header *)

Lemma struct_unpack_I_range (b : bytes) (n : Z) :
  struct_unpack_I b = Ok n → 0 ≤ n < 2 ^ 32.
Proof.
  destruct b as [|b3 [|b2 [|b1 [|b0 [|]]]]]; try done.
  intros [= <-].
  pose proof (byte_to_Z_range b3). pose proof (byte_to_Z_range b2).
  pose proof (byte_to_Z_range b1). pose proof (byte_to_Z_range b0).
  rewrite (lor_shiftl_small _ (byte_to_Z b0) 8) by lia.
  rewrite (lor_shiftl_small _ _ 16) by lia.
  rewrite (lor_shiftl_small _ _ 24) by lia.
  lia.
Qed.

Lemma struct_unpack_I_total (b : bytes) :
  length b = 4%nat → ∃ n, struct_unpack_I b = Ok n.
Proof.
  destruct b as [|b3 [|b2 [|b1 [|b0 [|]]]]]; try done. intros _. eexists. reflexivity.
Qed.

Section header.
Context (P : platform).

(** The cases of [parse_header], the last one as the call of the JSON
    reader that it makes. *)
Lemma parse_header_cases (blob : bytes) :
  ((length blob < 12)%nat → parse_header P blob = Raise HeaderTooSmall)
  ∧ ((12 ≤ length blob)%nat → take 4 blob ≠ MAGIC →
       parse_header P blob = Raise BadMagic)
  ∧ ((12 ≤ length blob)%nat → take 4 blob = MAGIC →
       ∃ version hlen,
         struct_unpack_I (take 4 (drop 4 blob)) = Ok version
         ∧ struct_unpack_I (take 4 (drop 8 blob)) = Ok hlen
         ∧ 0 ≤ hlen < 2 ^ 32
         ∧ (hlen > Z.of_nat (length blob) - 12 →
              parse_header P blob = Raise CorruptHeaderLength)
         ∧ (hlen ≤ Z.of_nat (length blob) - 12 →
              parse_header P blob =
                (header ← json_loads P (take (Z.to_nat hlen) (drop 12 blob));
                 Ok (version, header, drop (12 + Z.to_nat hlen) blob)))).
Proof.
  unfold parse_header. split_and!.
  - intros Hlen. by rewrite decide_True.
  - intros Hlen Hmagic. rewrite decide_False by lia. by rewrite decide_True.
  - intros Hlen Hmagic.
    rewrite decide_False by lia. rewrite decide_False by (by intros ?).
    destruct (struct_unpack_I_total (take 4 (drop 4 blob))) as [version Hv].
    { rewrite length_take, length_drop. lia. }
    destruct (struct_unpack_I_total (take 4 (drop 8 blob))) as [hlen Hh].
    { rewrite length_take, length_drop. lia. }
    exists version, hlen. rewrite Hv, Hh. simpl.
    split; [done|]. split; [done|].
    split; [by eapply struct_unpack_I_range|]. split.
    + intros Hbig. rewrite decide_True by lia. done.
    + intros Hfit. rewrite decide_False by lia. done.
Qed.

(** C7, as the code has it: [parse_header] raises [HeaderTooSmall] on every
    blob of fewer than 12 bytes; on a blob of at least 12 bytes it raises
    [BadMagic] when the first 4 bytes are not [QDSX]; otherwise the version
    and the declared metadata length are the two big-endian words at
    offsets 4 and 8, and it raises [CorruptHeaderLength] when the declared
    length exceeds the bytes left after offset 12.  Otherwise it hands the
    metadata bytes to [json.loads]: when that returns, [parse_header]
    returns the version, the parsed metadata, and exactly the bytes after
    the metadata; when that raises, [parse_header] raises the same
    exception. *)
Theorem C7_parse_header_outcomes (blob : bytes) :
  ((length blob < 12)%nat → parse_header P blob = Raise HeaderTooSmall)
  ∧ ((12 ≤ length blob)%nat → take 4 blob ≠ MAGIC →
       parse_header P blob = Raise BadMagic)
  ∧ ((12 ≤ length blob)%nat → take 4 blob = MAGIC →
       ∃ version hlen,
         struct_unpack_I (take 4 (drop 4 blob)) = Ok version
         ∧ struct_unpack_I (take 4 (drop 8 blob)) = Ok hlen
         ∧ 0 ≤ hlen < 2 ^ 32
         ∧ (hlen > Z.of_nat (length blob) - 12 →
              parse_header P blob = Raise CorruptHeaderLength)
         ∧ (hlen ≤ Z.of_nat (length blob) - 12 →
              (∀ header,
                 json_loads P (take (Z.to_nat hlen) (drop 12 blob)) = Ok header →
                 parse_header P blob
                 = Ok (version, header, drop (12 + Z.to_nat hlen) blob))
              ∧ (∀ e,
                   json_loads P (take (Z.to_nat hlen) (drop 12 blob)) = Raise e →
                   parse_header P blob = Raise e))).
Proof.
  destruct (parse_header_cases blob) as (Hsmall & Hmagic & Hrest).
  split; [done|]. split; [done|]. intros Hlen Hm.
  destruct (Hrest Hlen Hm) as (version & hlen & Hv & Hh & Hrange & Hbig & Hfit).
  exists version, hlen. do 4 (split; [done|]).
  intros Hle. rewrite (Hfit Hle). split.
  - by intros header ->.
  - by intros e ->.
Qed.

(** A serialised header, followed by any payload, parses back into what
    [json.loads] makes of the metadata, and the payload. *)
Lemma parse_encode_header (header : pyval) (hdr cdata : bytes) :
  encode_header P header = Ok hdr →
  parse_header P (hdr ++ cdata) =
    (h ← json_loads P (json_dumps P header); Ok (VERSION, h, cdata)).
Proof.
  unfold encode_header. simpl.
  destruct (struct_pack_I (Z.of_nat (length (json_dumps P header))))
    as [hlen|e] eqn:Hpack; [|done].
  simpl. intros [= <-].
  assert (0 ≤ Z.of_nat (length (json_dumps P header)) < 2 ^ 32) as Hrange.
  { unfold struct_pack_I in Hpack. by destruct (decide _). }
  destruct (struct_pack_unpack _ Hrange) as (hlen' & Hpack' & Hlen4 & Hun).
  rewrite Hpack in Hpack'. injection Hpack' as <-.
  destruct hlen as [|l3 [|l2 [|l1 [|l0 [|]]]]]; try done.
  unfold parse_header.
  rewrite decide_False by (simpl; lia).
  rewrite decide_False by (by intros ?).
  cbn [app take drop MAGIC]. rewrite take_0, drop_0, Hun.
  assert (struct_unpack_I
            [byte_of_Z (Z.land (VERSION ≫ 24) 255); byte_of_Z (Z.land (VERSION ≫ 16) 255);
             byte_of_Z (Z.land (VERSION ≫ 8) 255); byte_of_Z (Z.land VERSION 255)]
          = Ok VERSION) as -> by reflexivity.
  cbn [mbind result_bind].
  rewrite decide_False by (cbn [length]; rewrite length_app; lia).
  rewrite Nat2Z.id, take_app_length.
  destruct (json_loads P (json_dumps P header)) as [h|e]; [|done].
  cbn [mbind result_bind Nat.add drop]. by rewrite drop_app_length.
Qed.
End header.

(** ** Unpack *)

Lemma io_bind_unfold {A B} (m : io A) (f : A → io B) (w : world) :
  (m ≫= f) w =
  match m w with
  | (Ok a, w') => f a w'
  | (Raise e, w') => (Raise e, w')
  end.
Proof. reflexivity. Qed.

Lemma registry_get_unknown {V} (reg : list (string * V)) (name : string) :
  registry_find reg name = None →
  registry_get reg (PStr name) = Raise (KeyError (PStr name)).
Proof. intros H. unfold registry_get. by rewrite H. Qed.

Lemma registry_get_known {V} (reg : list (string * V)) (name : string) (v : V) :
  registry_find reg name = Some v → registry_get reg (PStr name) = Ok v.
Proof. intros H. unfold registry_get. by rewrite H. Qed.

Section unpack.
Context (P : platform).

(** With [return_bytes] set, unpacking reads one file and leaves the world
    as it was. *)
Lemma qdsx_unpack_return_bytes (qpath : string) (w : world) :
  qdsx_unpack P qpath true w =
    (match files w !! qpath with
     | Some blob => Restored <$> unpack_bytes P blob
     | None => Raise (OSError qpath)
     end, w).
Proof.
  unfold qdsx_unpack. rewrite io_bind_unfold. unfold read_file.
  destruct (files w !! qpath) as [blob|]; [|done].
  rewrite io_bind_unfold. unfold io_lift, unpack_bytes.
  destruct (parse_header P blob) as [[[v header] cdata]|e]; [|done].
  simpl. rewrite io_bind_unfold.
  destruct (restore P header cdata) as [raw|e]; done.
Qed.

Lemma restore_dict (m : gmap string pyval) (cdata : bytes) :
  restore P (PDict m) cdata =
    (let tname := default (PStr "none") (m !! "transform") in
     let cname := default (PStr "none") (m !! "codec") in
     let orig_size := default (PInt 0) (m !! "orig_size") in
     raw ← (if py_eq_zero orig_size && py_eq_str cname "none" then Ok []
            else
              c ← registry_get (CODECS P) cname;
              t ← registry_get TRANSFORMS tname;
              d ← c.2 cdata;
              t.2 d);
     stored ← dict_getitem (PDict m) "orig_sha256";
     if negb (py_eq_str stored (sha256_bytes P raw)) then Raise ChecksumMismatch
     else Ok raw).
Proof. reflexivity. Qed.

(** C10: a header without the key [codec] (or [transform]) is unpacked as
    the same header with that key set to ["none"]: the lookup of the key
    does not fail, the name defaults before the registries are consulted,
    and it is the name ["none"] that they are asked for.  Without [codec],
    and with an [orig_size] other than 0, unpack raises the [KeyError] of
    [CODECS] for ["none"], which is no codec; without [transform], and with
    a registered codec, the transform ["none"] of [TRANSFORMS] is applied,
    the identity, and the decompressed bytes are checked against the
    stored hash.  So an artifact whose metadata record [orig_size] 0, no
    codec, and the hash of the empty string, unpacks to the empty byte
    string.  [qdsx_unpack] returns what [restore] gives on the parsed
    blob. *)
Theorem C10_missing_names_default_to_none (m : gmap string pyval) (cdata : bytes) :
  (m !! "codec" = None →
     restore P (PDict m) cdata = restore P (PDict (<["codec" := PStr "none"]> m)) cdata)
  ∧ (m !! "transform" = None →
     restore P (PDict m) cdata =
       restore P (PDict (<["transform" := PStr "none"]> m)) cdata)
  ∧ (m !! "codec" = None →
     py_eq_zero (default (PInt 0) (m !! "orig_size")) = false →
     restore P (PDict m) cdata = Raise (KeyError (PStr "none")))
  ∧ (m !! "transform" = None →
     ∀ (cname : string) (enc dec : bytes → result bytes),
       m !! "codec" = Some (PStr cname) →
       registry_find (CODECS P) cname = Some (enc, dec) →
       restore P (PDict m) cdata =
         (d ← dec cdata;
          stored ← dict_getitem (PDict m) "orig_sha256";
          if negb (py_eq_str stored (sha256_bytes P d)) then Raise ChecksumMismatch
          else Ok d))
  ∧ (m !! "codec" = None → m !! "orig_size" = Some (PInt 0) →
     m !! "orig_sha256" = Some (PStr (sha256_bytes P [])) →
     restore P (PDict m) cdata = Ok []
     ∧ ∀ (w : world) (qpath : string) (blob : bytes) (version : Z),
         files w !! qpath = Some blob →
         parse_header P blob = Ok (version, PDict m, cdata) →
         qdsx_unpack P qpath true w = (Ok (Restored []), w))
  ∧ (∀ (w : world) (qpath : string) (blob : bytes) (version : Z),
       files w !! qpath = Some blob →
       parse_header P blob = Ok (version, PDict m, cdata) →
       qdsx_unpack P qpath true w = (Restored <$> restore P (PDict m) cdata, w)).
Proof.
  assert (∀ (w : world) (qpath : string) (blob : bytes) (version : Z),
            files w !! qpath = Some blob →
            parse_header P blob = Ok (version, PDict m, cdata) →
            qdsx_unpack P qpath true w = (Restored <$> restore P (PDict m) cdata, w))
    as Hun.
  { intros w qpath blob version Hblob Hparse.
    rewrite qdsx_unpack_return_bytes, Hblob. unfold unpack_bytes.
    by rewrite Hparse. }
  split_and!; [| | | | |exact Hun].
  - intros Hc. rewrite !restore_dict. unfold dict_getitem.
    rewrite lookup_insert_eq, !lookup_insert_ne by done. by rewrite Hc.
  - intros Ht. rewrite !restore_dict. unfold dict_getitem.
    rewrite lookup_insert_eq, !lookup_insert_ne by done. by rewrite Ht.
  - intros Hc Hz. rewrite restore_dict, Hc. cbn zeta. rewrite Hz.
    cbn [andb default from_option].
    by rewrite (registry_get_unknown (CODECS P) "none" eq_refl).
  - intros Ht cname enc dec Hc Hknown. rewrite restore_dict, Ht, Hc. cbn zeta.
    cbn [default from_option id].
    change (py_eq_str (PStr cname) "none") with (bool_decide (cname = "none")).
    assert (cname ≠ "none") as Hne.
    { intros ->. simpl in Hknown. done. }
    rewrite (bool_decide_eq_false_2 _ Hne), andb_false_r.
    rewrite (registry_get_known _ _ _ Hknown).
    rewrite (registry_get_known TRANSFORMS "none" _ eq_refl).
    cbn [mbind result_bind snd]. by destruct (dec cdata).
  - intros Hc Hs Hsha.
    assert (restore P (PDict m) cdata = Ok []) as Hr.
    { rewrite restore_dict. unfold dict_getitem. rewrite Hc, Hs, Hsha. simpl.
      by rewrite bool_decide_true. }
    split; [done|]. intros w qpath blob version Hblob Hparse.
    by rewrite (Hun w qpath blob version Hblob Hparse), Hr.
Qed.

(** C8, as the code has it: when the codec name of a parsed header is a string
    that is not a key of [CODECS] (and the empty-payload case does not
    apply), unpack raises [KeyError] with that name; when the codec name is
    registered and the transform name is a string that is not a key of
    [TRANSFORMS], unpack raises [KeyError] with the transform name.  The
    codec registry is consulted first and the exception is Python's own
    for a missing key, the same for both registries. *)
Theorem C8_unknown_name_is_KeyError (m : gmap string pyval) (cdata : bytes)
    (tname cname : string) :
  default (PStr "none") (m !! "transform") = PStr tname →
  default (PStr "none") (m !! "codec") = PStr cname →
  (registry_find (CODECS P) cname = None →
     ¬ (py_eq_zero (default (PInt 0) (m !! "orig_size")) = true ∧ cname = "none") →
     restore P (PDict m) cdata = Raise (KeyError (PStr cname)))
  ∧ (is_Some (registry_find (CODECS P) cname) →
     registry_find TRANSFORMS tname = None →
     restore P (PDict m) cdata = Raise (KeyError (PStr tname))).
Proof.
  intros Ht Hc. split.
  - intros Hunknown Hspecial. rewrite restore_dict, Ht, Hc.
    cbn zeta. change (py_eq_str (PStr cname) "none") with (bool_decide (cname = "none")).
    destruct (py_eq_zero (default (PInt 0) (m !! "orig_size"))) eqn:Hz;
      destruct (bool_decide_reflect (cname = "none")) as [Hn|Hn];
      try (by destruct Hspecial).
    all: cbn [andb]; by rewrite (registry_get_unknown _ _ Hunknown).
  - intros [c Hknown] Hunknown. rewrite restore_dict, Ht, Hc.
    cbn zeta. change (py_eq_str (PStr cname) "none") with (bool_decide (cname = "none")).
    assert (cname ≠ "none") as Hne.
    { intros ->. simpl in Hknown. done. }
    rewrite (bool_decide_eq_false_2 _ Hne), andb_false_r.
    rewrite (registry_get_known _ _ _ Hknown). cbn [mbind result_bind].
    by rewrite (registry_get_unknown _ _ Hunknown).
Qed.
End unpack.

(** ** Pack *)

Section pack.
Context (P : platform).

Lemma encode_header_Ok (header : pyval) :
  Z.of_nat (length (json_dumps P header)) < 2 ^ 32 →
  ∃ hdr, encode_header P header = Ok hdr.
Proof.
  intros Hlen. unfold encode_header.
  destruct (struct_pack_unpack VERSION) as (v & -> & _); [done|].
  destruct (struct_pack_unpack (Z.of_nat (length (json_dumps P header))))
    as (l & -> & _); [lia|].
  eexists. reflexivity.
Qed.

Lemma pack_empty_eq (path : string) (w : world) :
  pack_empty P path w =
    match encode_header P (empty_header P path w) with
    | Ok blob => (Ok (path +:+ ".qdsx"), after_pack_empty path blob w)
    | Raise e => (Raise e, w)
    end.
Proof.
  unfold pack_empty. rewrite io_bind_unfold. unfold strftime.
  rewrite io_bind_unfold. unfold io_lift. fold (empty_header P path w).
  destruct (encode_header P (empty_header P path w)) as [blob|e]; done.
Qed.

Lemma qdsx_pack_empty (path : string) (w : world) :
  files w !! path = Some [] → qdsx_pack P path w = pack_empty P path w.
Proof.
  intros Hraw. unfold qdsx_pack. rewrite io_bind_unfold. unfold read_file.
  by rewrite Hraw.
Qed.

Lemma make_header_fields (path : string) (n : nat) (sha tname cname ts : string) :
  ∃ m, make_header P path n sha tname cname ts = PDict m
       ∧ m !! "transform" = Some (PStr tname)
       ∧ m !! "codec" = Some (PStr cname)
       ∧ m !! "orig_size" = Some (PInt (Z.of_nat n))
       ∧ m !! "orig_sha256" = Some (PStr sha).
Proof.
  eexists. split; [reflexivity|]. cbn [list_to_map foldr uncurry fst snd].
  split_and!; repeat (rewrite lookup_insert_ne by done); by rewrite lookup_insert_eq.
Qed.

Lemma restore_empty_header (path : string) (w : world) (cdata : bytes) :
  restore P (empty_header P path w) cdata = Ok [].
Proof.
  unfold empty_header.
  destruct (make_header_fields path 0 (sha256_bytes P []) "none" "none" (clock w))
    as (m & -> & Ht & Hc & Hs & Hsha).
  rewrite restore_dict. unfold dict_getitem. rewrite Ht, Hc, Hs, Hsha. simpl.
  by rewrite bool_decide_true.
Qed.
End pack.

(** C9: packing an empty file runs no transform and no codec (the result is
    the same on every platform that differs in its codecs only); it writes an
    artifact that parses into the metadata [transform] ["none"], [codec]
    ["none"], [orig_size] 0, followed by an empty payload; and unpacking that
    artifact returns the empty byte string.  The metadata are assumed to fit
    the 4-byte length field and to survive [json.dumps] and [json.loads]. *)
Theorem C9_empty_input (P : platform) (path : string) (w : world) :
  files w !! path = Some [] →
  Z.of_nat (length (json_dumps P (empty_header P path w))) < 2 ^ 32 →
  json_loads P (json_dumps P (empty_header P path w)) = Ok (empty_header P path w) →
  ∃ blob,
    qdsx_pack P path w = (Ok (path +:+ ".qdsx"), after_pack_empty path blob w)
    ∧ parse_header P blob = Ok (VERSION, empty_header P path w, [])
    ∧ dict_getitem (empty_header P path w) "transform" = Ok (PStr "none")
    ∧ dict_getitem (empty_header P path w) "codec" = Ok (PStr "none")
    ∧ dict_getitem (empty_header P path w) "orig_size" = Ok (PInt 0)
    ∧ qdsx_unpack P (path +:+ ".qdsx") true (after_pack_empty path blob w)
        = (Ok (Restored []), after_pack_empty path blob w)
    ∧ ∀ P', same_but_codecs P P' → qdsx_pack P' path w = qdsx_pack P path w.
Proof.
  intros Hraw Hlen Hjson.
  destruct (encode_header_Ok P _ Hlen) as [blob Hblob]. exists blob.
  assert (parse_header P blob = Ok (VERSION, empty_header P path w, [])) as Hparse.
  { rewrite <- (app_nil_r blob). rewrite (parse_encode_header P _ _ _ Hblob).
    by rewrite Hjson. }
  destruct (make_header_fields P path 0 (sha256_bytes P []) "none" "none" (clock w))
    as (m & Hm & Ht & Hc & Hs & _).
  split_and!.
  - by rewrite qdsx_pack_empty, pack_empty_eq, Hblob.
  - done.
  - unfold empty_header. rewrite Hm. unfold dict_getitem. by rewrite Ht.
  - unfold empty_header. rewrite Hm. unfold dict_getitem. by rewrite Hc.
  - unfold empty_header. rewrite Hm. unfold dict_getitem. by rewrite Hs.
  - rewrite qdsx_unpack_return_bytes. unfold after_pack_empty at 1. cbn [files].
    rewrite lookup_insert_eq. unfold unpack_bytes. rewrite Hparse. simpl.
    by rewrite restore_empty_header.
  - intros P' (Hsha & Hdumps & Hloads & Hbase).
    rewrite !qdsx_pack_empty, !pack_empty_eq by done.
    unfold encode_header, empty_header, make_header.
    by rewrite Hsha, Hdumps, Hbase.
Qed.

(** ** The self-check *)

Lemma self_check_eq (P : platform) (outpath : string) (raw : bytes) (w : world) :
  self_check P outpath raw w =
    match (qdsx_unpack P outpath true w).1 with
    | Ok (Restored r) => if decide (r = raw) then (Ok (), w) else (Raise IntegrityFailure, w)
    | Ok (Written _) => (Raise IntegrityFailure, w)
    | Raise e => (Raise e, w)
    end.
Proof.
  unfold self_check. rewrite io_bind_unfold, qdsx_unpack_return_bytes. cbn [fst].
  destruct (files w !! outpath) as [blob|]; [|done].
  destruct (unpack_bytes P blob) as [r|e]; [|done].
  simpl. by destruct (decide (r = raw)).
Qed.

(** C2: when the self-check of a non-empty input reads back bytes other than
    the input, [qdsx_pack] raises [IntegrityFailure]; and whenever [qdsx_pack]
    returns a path, unpacking the file at that path returns the input bytes
    exactly.  For the empty input, which is written without a self-check,
    this rests on the metadata surviving [json.dumps] and [json.loads]. *)
Theorem C2_pack_succeeds_only_verified (P : platform) (path : string) (w : world) :
  (∀ raw out cand w1 restored w2,
     files w !! path = Some raw → raw ≠ [] →
     pack_artifact P path raw w = (Ok (out, cand), w1) →
     qdsx_unpack P out true w1 = (Ok restored, w2) →
     restored ≠ Restored raw →
     qdsx_pack P path w = (Raise IntegrityFailure, w2))
  ∧ (∀ out w',
       qdsx_pack P path w = (Ok out, w') →
       (files w !! path = Some [] →
        json_loads P (json_dumps P (empty_header P path w)) = Ok (empty_header P path w)) →
       ∃ raw, files w !! path = Some raw
              ∧ qdsx_unpack P out true w' = (Ok (Restored raw), w')).
Proof.
  split.
  - intros raw out [[tname cname] cdata] w1 restored w2 Hraw Hne Hart Hun Hdiff.
    unfold qdsx_pack. rewrite io_bind_unfold. unfold read_file. rewrite Hraw.
    destruct raw as [|b raw]; [done|].
    rewrite io_bind_unfold, Hart. cbn iota beta.
    rewrite io_bind_unfold, self_check_eq.
    pose proof (qdsx_unpack_return_bytes P out w1) as Heq.
    rewrite Hun in Heq. injection Heq as Hres <-. rewrite Hun. cbn [fst].
    destruct restored as [r|o]; [|done].
    rewrite decide_False by congruence. done.
  - intros out w' Hpack Hjson.
    unfold qdsx_pack in Hpack. rewrite io_bind_unfold in Hpack.
    unfold read_file in Hpack.
    destruct (files w !! path) as [raw|] eqn:Hraw; [|done].
    exists raw. split; [done|].
    destruct raw as [|b raw].
    + rewrite pack_empty_eq in Hpack.
      destruct (encode_header P (empty_header P path w)) as [blob|e] eqn:Hblob; [|done].
      injection Hpack as <- <-.
      rewrite qdsx_unpack_return_bytes. unfold after_pack_empty at 1. cbn [files].
      rewrite lookup_insert_eq. unfold unpack_bytes.
      rewrite <- (app_nil_r blob), (parse_encode_header P _ _ _ Hblob).
      rewrite (Hjson eq_refl). simpl. by rewrite restore_empty_header.
    + rewrite io_bind_unfold in Hpack.
      destruct (pack_artifact P path (b :: raw) w) as [[[o [[tname cname] cdata]]|e] w1];
        [|done].
      cbn iota beta in Hpack. rewrite io_bind_unfold, self_check_eq in Hpack.
      rewrite qdsx_unpack_return_bytes in Hpack. cbn [fst] in Hpack.
      destruct (files w1 !! o) as [blob|] eqn:Hblob; [|done].
      destruct (unpack_bytes P blob) as [r|e] eqn:Hr; [|done].
      simpl in Hpack. destruct (decide (r = b :: raw)) as [->|]; [|done].
      injection Hpack as <- <-.
      rewrite qdsx_unpack_return_bytes. cbn [files]. by rewrite Hblob, Hr.
Qed.

(** ** Selection *)

(** The candidate [pack_artifact] writes is the one the search selected. *)
Lemma pack_artifact_selected (P : platform) (path : string) (raw : bytes)
    (w w1 : world) (out : string) (cand : candidate) :
  pack_artifact P path raw w = (Ok (out, cand), w1) →
  ∃ best_size, (strategy_search P path raw).1 = Some (best_size, cand).
Proof.
  unfold pack_artifact.
  destruct (strategy_search P path raw) as [[[best_size [[tname cname] cdata]]|] failures];
    rewrite io_bind_unfold; cbn [log_all]; [|done].
  rewrite io_bind_unfold. cbn [strftime]. rewrite io_bind_unfold. unfold io_lift.
  destruct (encode_header P _) as [hdr|e]; [|done].
  rewrite io_bind_unfold. cbn [write_file mret io_ret].
  intros [= <- <- <-]. eauto.
Qed.


(** ** The engine on the small platform *)

(** C2 at work: where the metadata read back name the wrong transform, the
    pack of [g] raises; where they are the ones written, the pack of [g]
    returns and the artifact unpacks to [aaa]. *)
Lemma C2_pack_succeeds_only_verified_witness :
  qdsx_pack (demo_platform demo_wrong_header) "g" (demo_world "g" aaa)
    = (Raise IntegrityFailure,
       (pack_artifact (demo_platform demo_wrong_header) "g" aaa (demo_world "g" aaa)).2)
  ∧ ∃ raw, files (demo_world "g" aaa) !! "g" = Some raw
      ∧ qdsx_unpack (demo_platform demo_header) "g.qdsx" true
          (qdsx_pack (demo_platform demo_header) "g" (demo_world "g" aaa)).2
        = (Ok (Restored raw),
           (qdsx_pack (demo_platform demo_header) "g" (demo_world "g" aaa)).2).
Proof.
  split.
  - apply (proj1 (C2_pack_succeeds_only_verified (demo_platform demo_wrong_header) "g"
                    (demo_world "g" aaa))
             aaa "g.qdsx" ("rle", "zlib", ["a"%byte; x03])
             (pack_artifact (demo_platform demo_wrong_header) "g" aaa (demo_world "g" aaa)).2
             (Restored ["a"%byte; x03])).
    + reflexivity.
    + discriminate.
    + vm_compute. reflexivity.
    + vm_compute. reflexivity.
    + discriminate.
  - apply (proj2 (C2_pack_succeeds_only_verified (demo_platform demo_header) "g"
                    (demo_world "g" aaa)) "g.qdsx").
    + vm_compute. reflexivity.
    + intros H. vm_compute in H. discriminate H.
Defined.


(** C7, counterexample: a blob of 14 bytes with the magic, whose declared
    metadata length 1 fits the 2 bytes after offset 12, passes the three
    checks; its metadata are the lone brace, and [parse_header] does not
    return: it raises the exception of the JSON reader. *)
Lemma C7_unreadable_metadata_raises :
  length blob_unreadable = 14%nat
  ∧ take 4 blob_unreadable = MAGIC
  ∧ struct_unpack_I (take 4 (drop 8 blob_unreadable)) = Ok 1
  ∧ json_loads json_platform (take 1 (drop 12 blob_unreadable)) = Raise ValueError
  ∧ parse_header json_platform blob_unreadable = Raise ValueError.
Proof. split_and!; vm_compute; reflexivity. Qed.

(** C7 at work on five blobs: too short, wrong magic, oversized metadata
    length, readable metadata, and metadata that are not JSON. *)
Lemma C7_parse_header_outcomes_witness :
  parse_header json_platform blob_short = Raise HeaderTooSmall
  ∧ parse_header json_platform blob_bad_magic = Raise BadMagic
  ∧ parse_header json_platform blob_oversized = Raise CorruptHeaderLength
  ∧ parse_header json_platform blob_good = Ok (2, PDict ∅, [xaa; xbb])
  ∧ parse_header json_platform blob_unreadable = Raise ValueError.
Proof.
  split_and!.
  - apply (proj1 (C7_parse_header_outcomes json_platform blob_short)).
    vm_compute. lia.
  - apply (proj1 (proj2 (C7_parse_header_outcomes json_platform blob_bad_magic))).
    + vm_compute. lia.
    + discriminate.
  - destruct (proj2 (proj2 (C7_parse_header_outcomes json_platform blob_oversized)))
      as (version & hlen & _ & Hh & _ & Hbig & _).
    + vm_compute. lia.
    + reflexivity.
    + vm_compute in Hh. injection Hh as <-. apply Hbig. vm_compute. reflexivity.
  - destruct (proj2 (proj2 (C7_parse_header_outcomes json_platform blob_good)))
      as (version & hlen & Hv & Hh & _ & _ & Hfits).
    + vm_compute. lia.
    + reflexivity.
    + vm_compute in Hv, Hh. injection Hv as <-. injection Hh as <-.
      destruct Hfits as [Hok _]; [vm_compute; discriminate|].
      apply (Hok (PDict ∅)). reflexivity.
  - destruct (proj2 (proj2 (C7_parse_header_outcomes json_platform blob_unreadable)))
      as (version & hlen & _ & Hh & _ & _ & Hfits).
    + vm_compute. lia.
    + reflexivity.
    + vm_compute in Hh. injection Hh as <-.
      destruct Hfits as [_ Hraise]; [vm_compute; discriminate|].
      apply (Hraise ValueError). reflexivity.
Defined.

(** C8, counterexample: on an artifact that names an unregistered transform
    and on one that names an unregistered codec, [qdsx_unpack] raises the
    same value, Python's [KeyError] with the name, which tells neither which
    registry missed it nor an unknown name from a missing metadata field:
    metadata without the stored hash raise [KeyError] as well. *)
Lemma C8_unknown_names_raise_same_KeyError :
  qdsx_unpack (demo_platform (PDict (named_header "bogus" "zlib"))) "a.qdsx" true
      (demo_world "a.qdsx" blob_bare)
    = (Raise (KeyError (PStr "bogus")), demo_world "a.qdsx" blob_bare)
  ∧ qdsx_unpack (demo_platform (PDict (named_header "none" "bogus"))) "a.qdsx" true
      (demo_world "a.qdsx" blob_bare)
    = (Raise (KeyError (PStr "bogus")), demo_world "a.qdsx" blob_bare)
  ∧ qdsx_unpack (demo_platform (PDict hashless_header)) "a.qdsx" true
      (demo_world "a.qdsx" blob_bare)
    = (Raise (KeyError (PStr "orig_sha256")), demo_world "a.qdsx" blob_bare).
Proof. split_and!; vm_compute; reflexivity. Qed.

(** C8 at work: an unknown codec hides an unknown transform; with a
    registered codec the transform name is reported. *)
Lemma C8_unknown_name_is_KeyError_witness :
  restore (demo_platform PNone) (PDict (named_header "rot13" "zstd")) []
    = Raise (KeyError (PStr "zstd"))
  ∧ restore (demo_platform PNone) (PDict (named_header "rot13" "bz2")) []
    = Raise (KeyError (PStr "rot13")).
Proof.
  split.
  - apply (proj1 (C8_unknown_name_is_KeyError (demo_platform PNone)
                    (named_header "rot13" "zstd") [] "rot13" "zstd" eq_refl eq_refl)).
    + reflexivity.
    + intros [_ H]. discriminate H.
  - apply (proj2 (C8_unknown_name_is_KeyError (demo_platform PNone)
                    (named_header "rot13" "bz2") [] "rot13" "bz2" eq_refl eq_refl)).
    + eexists. reflexivity.
    + reflexivity.
Defined.

(** C9 at work: the artifact of the empty file [f] is the bare prefix. *)
Lemma C9_empty_input_witness :
  ∃ blob,
    qdsx_pack (demo_platform demo_empty_header) "f" (demo_world "f" [])
      = (Ok "f.qdsx", after_pack_empty "f" blob (demo_world "f" []))
    ∧ blob = blob_bare
    ∧ parse_header (demo_platform demo_empty_header) blob = Ok (VERSION, demo_empty_header, [])
    ∧ dict_getitem demo_empty_header "transform" = Ok (PStr "none")
    ∧ dict_getitem demo_empty_header "codec" = Ok (PStr "none")
    ∧ dict_getitem demo_empty_header "orig_size" = Ok (PInt 0)
    ∧ qdsx_unpack (demo_platform demo_empty_header) "f.qdsx" true
        (after_pack_empty "f" blob (demo_world "f" []))
      = (Ok (Restored []), after_pack_empty "f" blob (demo_world "f" [])).
Proof.
  destruct (C9_empty_input (demo_platform demo_empty_header) "f" (demo_world "f" []))
    as (blob & Hpack & Hparse & Ht & Hc & Hs & Hun & _).
  - reflexivity.
  - reflexivity.
  - reflexivity.
  - exists blob. split_and!; try assumption.
    vm_compute in Hpack. injection Hpack as Hblob. rewrite <- Hblob. reflexivity.
Defined.

(** C10 at work: on metadata that carry a size and a hash only, with the
    size 0 and with the size 1, and on metadata that name the codec [zlib]
    and no transform. *)
Lemma C10_missing_names_default_to_none_witness :
  restore (demo_platform PNone) (PDict nameless_header) []
    = restore (demo_platform PNone) (PDict (<["codec" := PStr "none"]> nameless_header)) []
  ∧ restore (demo_platform PNone) (PDict nameless_header) []
    = restore (demo_platform PNone)
        (PDict (<["transform" := PStr "none"]> nameless_header)) []
  ∧ restore (demo_platform PNone) (PDict codecless_header) ["a"%byte]
    = Raise (KeyError (PStr "none"))
  ∧ restore (demo_platform PNone) (PDict transformless_header) ["a"%byte]
    = Ok ["a"%byte]
  ∧ restore (demo_platform PNone) (PDict nameless_header) [] = Ok []
  ∧ qdsx_unpack (demo_platform (PDict nameless_header)) "a.qdsx" true
      (demo_world "a.qdsx" blob_bare)
    = (Ok (Restored []), demo_world "a.qdsx" blob_bare)
  ∧ qdsx_unpack (demo_platform (PDict codecless_header)) "a.qdsx" true
      (demo_world "a.qdsx" blob_bare)
    = (Raise (KeyError (PStr "none")), demo_world "a.qdsx" blob_bare).
Proof.
  pose proof (C10_missing_names_default_to_none (demo_platform PNone) nameless_header [])
    as (H1 & H2 & _ & _ & H5 & _).
  pose proof (C10_missing_names_default_to_none (demo_platform PNone) codecless_header
                ["a"%byte]) as (_ & _ & H3 & _).
  pose proof (C10_missing_names_default_to_none (demo_platform PNone)
                transformless_header ["a"%byte]) as (_ & _ & _ & H4 & _).
  pose proof (C10_missing_names_default_to_none (demo_platform (PDict nameless_header))
                nameless_header []) as (_ & _ & _ & _ & H6 & _).
  pose proof (C10_missing_names_default_to_none (demo_platform (PDict codecless_header))
                codecless_header []) as (_ & _ & H7 & _ & _ & H8).
  split_and!.
  - apply H1. reflexivity.
  - apply H2. reflexivity.
  - apply H3; reflexivity.
  - rewrite (H4 eq_refl "zlib" _ _ eq_refl eq_refl). reflexivity.
  - apply H5; reflexivity.
  - apply (proj2 (H6 eq_refl eq_refl eq_refl) (demo_world "a.qdsx" blob_bare)
             "a.qdsx" blob_bare 2); reflexivity.
  - rewrite (H8 (demo_world "a.qdsx" blob_bare) "a.qdsx" blob_bare 2 eq_refl eq_refl).
    rewrite H7; reflexivity.
Defined.

(** * Further properties of the transforms *)

(** ** Delta *)

Lemma delta_loop_roundtrip_inv (data : bytes) (prev : Z) :
  0 ≤ prev < 256 → tf_delta_loop prev (itf_delta_loop prev data) = data.
Proof.
  revert prev. induction data as [|b rest IH]; intros prev Hp; [done|].
  simpl. pose proof (byte_to_Z_range b) as Hb.
  rewrite !land_255.
  assert (0 ≤ (byte_to_Z b + prev) mod 256 < 256) as Hval
    by (apply Z.mod_pos_bound; lia).
  rewrite byte_to_of_Z by done.
  assert (((byte_to_Z b + prev) mod 256 - prev) mod 256 = byte_to_Z b) as ->.
  { rewrite Zminus_mod_idemp_l.
    replace (byte_to_Z b + prev - prev) with (byte_to_Z b) by lia.
    apply Z.mod_small. lia. }
  rewrite byte_of_to_Z. f_equal. by apply IH.
Qed.

(** X1: the delta pair is a bijection on byte strings: the forward filter
    also undoes the cumulative sum, so every byte string is the delta of
    exactly one input, and both directions keep the length. *)
Theorem delta_bijection (data : bytes) :
  tf_delta (itf_delta data) = data
  ∧ itf_delta (tf_delta data) = data
  ∧ length (itf_delta data) = length data
  ∧ (∀ data', tf_delta data = tf_delta data' → data = data').
Proof.
  split_and!.
  - apply delta_loop_roundtrip_inv. lia.
  - apply delta_roundtrip.
  - unfold itf_delta. generalize 0. induction data as [|b rest IH]; intros prev; [done|].
    simpl. by rewrite IH.
  - intros data' Heq. rewrite <- (delta_roundtrip data), <- (delta_roundtrip data').
    by rewrite Heq.
Qed.

(** ** Run-length coding *)

Lemma rle_expand_cons (b : byte) (k : nat) (runs : list (byte * nat)) :
  rle_expand ((b, k) :: runs) = replicate k b ++ rle_expand runs.
Proof. reflexivity. Qed.

Lemma rle_pairs_cons (b : byte) (k : nat) (runs : list (byte * nat)) :
  rle_pairs ((b, k) :: runs) = b :: byte_of_nat k :: rle_pairs runs.
Proof. reflexivity. Qed.

Lemma tf_rle_run_runs (rest : bytes) (b : byte) (run : nat) :
  (1 ≤ run ≤ 255)%nat →
  ∃ k runs,
    tf_rle_run b run rest = rle_pairs ((b, k) :: runs)
    ∧ replicate run b ++ rest = rle_expand ((b, k) :: runs)
    ∧ (run ≤ k ≤ 255)%nat
    ∧ Forall (λ p, 1 ≤ p.2 ≤ 255)%nat runs
    ∧ (length runs ≤ length rest)%nat
    ∧ (∀ i p q, ((b, k) :: runs) !! i = Some p → runs !! i = Some q →
         p.1 = q.1 → p.2 = 255%nat).
Proof.
  revert b run. induction rest as [|x rest IH]; intros b run Hrun.
  - exists run, []. rewrite rle_expand_cons. simpl. split_and!; try done; try lia.
  - simpl tf_rle_run.
    destruct (bool_decide (x = b) && (run <? 255)%nat) eqn:Hcont.
    + apply andb_prop in Hcont as [Hx Hlt].
      apply bool_decide_eq_true in Hx as ->. apply Nat.ltb_lt in Hlt.
      destruct (IH b (S run)) as (k & runs & -> & Hexp & Hk & Hall & Hlen & Hg); [lia|].
      exists k, runs. split_and!; try done; try (simpl; lia).
      rewrite <- Hexp. rewrite replicate_S_end, <- app_assoc. done.
    + destruct (IH x 1%nat) as (k & runs & -> & Hexp & Hk & Hall & Hlen & Hg); [lia|].
      exists run, ((x, k) :: runs). split_and!; try done; try (simpl; lia).
      * rewrite rle_expand_cons, <- Hexp. done.
      * constructor; [simpl; lia | done].
      * intros [|i] p q Hp Hq Hpq.
        -- injection Hp as <-. injection Hq as <-. simpl in Hpq. subst x. simpl.
           rewrite bool_decide_true in Hcont by done. simpl in Hcont.
           apply Nat.ltb_ge in Hcont. lia.
        -- by apply (Hg i p q).
Qed.

(** X2: the output of [tf_rle] is a stream of runs [(b, k)] with every count
    between 1 and 255 (a count of 0 is never written), whose expansion is the
    input; the runs are maximal (two neighbours carry the same byte only when
    the first is full, at 255); and the output has at most twice the length
    of the input. *)
Theorem tf_rle_runs (data : bytes) :
  ∃ runs,
    tf_rle data = rle_pairs runs
    ∧ rle_expand runs = data
    ∧ Forall (λ p, 1 ≤ p.2 ≤ 255)%nat runs
    ∧ (∀ i p q, runs !! i = Some p → runs !! S i = Some q → p.1 = q.1 → p.2 = 255%nat)
    ∧ length (tf_rle data) = (2 * length runs)%nat
    ∧ (length runs ≤ length data)%nat.
Proof.
  assert (∀ runs, length (rle_pairs runs) = (2 * length runs)%nat) as Hlen2.
  { induction runs as [|[b k] runs IH]; [done|].
    rewrite rle_pairs_cons. simpl. rewrite IH. lia. }
  destruct data as [|b rest].
  - exists []. split_and!; try done.
  - unfold tf_rle.
    destruct (tf_rle_run_runs rest b 1%nat) as (k & runs & Heq & Hexp & Hk & Hall & Hlen & Hg);
      [lia|].
    exists ((b, k) :: runs). rewrite Heq. split_and!; try done.
    + constructor; [simpl; lia | done].
    + simpl. lia.
Qed.

Lemma itf_rle_length_bound (n : nat) (payload : bytes) :
  (length payload ≤ n)%nat →
  (length (itf_rle payload) ≤ 255 * (length payload `div` 2))%nat.
Proof.
  revert payload. induction n as [n IH] using (well_founded_induction lt_wf).
  intros payload Hn. destruct payload as [|b [|run rest]]; simpl itf_rle.
  - simpl. lia.
  - simpl. lia.
  - rewrite length_app, length_replicate.
    pose proof (byte_to_nat_range run).
    assert (length (itf_rle rest) ≤ 255 * (length rest `div` 2))%nat as Hrest.
    { apply (IH (length rest)); [simpl in Hn; lia | lia]. }
    change (length (b :: run :: rest)) with (1 * 2 + length rest)%nat.
    rewrite Nat.div_add_l by lia. lia.
Qed.

(** X3: the RLE decoder expands a payload of [n] bytes into at most
    [255 * (n div 2)] bytes, and on a stream of runs with counts below 256 it
    returns their expansion, a run of count 0 contributing nothing. *)
Theorem itf_rle_expansion (payload : bytes) :
  (length (itf_rle payload) ≤ 255 * (length payload `div` 2))%nat
  ∧ (∀ runs, Forall (λ p, p.2 < 256)%nat runs → itf_rle (rle_pairs runs) = rle_expand runs).
Proof.
  split.
  - by apply (itf_rle_length_bound (length payload)).
  - induction 1 as [|[b k] runs Hk _ IH]; [done|].
    rewrite rle_pairs_cons, rle_expand_cons. simpl in *.
    rewrite byte_to_of_nat by done. by rewrite IH.
Qed.

(** ** Move-to-front *)

Lemma index_of_NoDup (l : bytes) (i : nat) (b : byte) :
  NoDup l → l !! i = Some b → index_of b l = Ok i.
Proof.
  revert i. induction l as [|y l IH]; intros i Hnd Hi; [done|].
  apply NoDup_cons in Hnd as [Hy Hnd]. destruct i as [|i]; simpl in *.
  - injection Hi as ->. by rewrite decide_True.
  - rewrite decide_False.
    + by rewrite (IH i).
    + intros ->. apply Hy. by eapply list_elem_of_lookup_2.
Qed.

Lemma alphabet0_NoDup : NoDup alphabet0.
Proof.
  unfold alphabet0. apply NoDup_fmap_2_strong; [|apply NoDup_seq].
  intros x y Hx Hy Heq. apply elem_of_seq in Hx, Hy.
  rewrite <- (byte_to_of_nat x), <- (byte_to_of_nat y) by lia. by rewrite Heq.
Qed.

Lemma move_to_front_NoDup (alphabet : bytes) (b : byte) (idx : nat) :
  alphabet !! idx = Some b → NoDup alphabet → NoDup (b :: delete idx alphabet).
Proof.
  intros Hidx Hnd.
  assert (b :: delete idx alphabet ≡ₚ alphabet) as ->; [|done].
  rewrite delete_take_drop, Permutation_middle. by rewrite take_drop_middle.
Qed.

Lemma mtf_encode_loop_length (data alphabet out : bytes) :
  mtf_encode_loop alphabet data = Ok out → length out = length data.
Proof.
  revert alphabet out. induction data as [|b rest IH]; intros alphabet out.
  - by intros [= <-].
  - simpl. intros H.
    apply bind_Ok_inv in H as (idx & _ & H).
    apply bind_Ok_inv in H as (out' & Hout & [= <-]).
    simpl. f_equal. by eapply IH.
Qed.

Lemma mtf_decode_loop_inv (data alphabet : bytes) :
  NoDup alphabet → length alphabet = 256%nat →
  ∃ out, mtf_decode_loop alphabet data = Ok out
         ∧ length out = length data
         ∧ mtf_encode_loop alphabet out = Ok data.
Proof.
  revert alphabet. induction data as [|i rest IH]; intros alphabet Hnd Hlen.
  - by exists [].
  - simpl. pose proof (byte_to_nat_range i) as Hi.
    destruct (lookup_lt_is_Some_2 alphabet (byte_to_nat i)) as [b Hb]; [lia|].
    rewrite (proj2 (py_index_Ok _ _ _) Hb). simpl.
    destruct (IH (b :: delete (byte_to_nat i) alphabet)) as (out & -> & Hout & Henc).
    { by apply move_to_front_NoDup. }
    { rewrite move_to_front_length; [done | lia]. }
    exists (b :: out). simpl. split; [done|]. split; [by rewrite Hout|].
    rewrite (index_of_NoDup _ _ _ Hnd Hb). simpl. rewrite Henc. simpl.
    by rewrite byte_of_to_nat.
Qed.

Lemma mtf_decode_total (data : bytes) :
  ∃ out, mtf_decode data = Ok out ∧ length out = length data
         ∧ mtf_encode out = Ok data.
Proof. apply mtf_decode_loop_inv; [apply alphabet0_NoDup | apply alphabet0_length]. Qed.

(** X4: move-to-front is a bijection on byte strings.  Neither direction
    ever raises (the alphabet always holds every byte, and every index byte
    is below its length), both keep the length, and each undoes the other. *)
Theorem mtf_bijection (data : bytes) :
  (∃ out, mtf_encode data = Ok out ∧ length out = length data
          ∧ mtf_decode out = Ok data)
  ∧ (∃ out, mtf_decode data = Ok out ∧ length out = length data
            ∧ mtf_encode out = Ok data).
Proof.
  split.
  - destruct (mtf_roundtrip data) as (out & Henc & Hdec).
    exists out. split; [done|]. split; [|done]. by eapply mtf_encode_loop_length.
  - apply mtf_decode_total.
Qed.

Lemma mtf_encode_loop_repeat (data alphabet out : bytes) (i : nat) (b : byte) :
  mtf_encode_loop alphabet data = Ok out →
  data !! i = Some b → data !! S i = Some b → out !! S i = Some x00.
Proof.
  revert alphabet out i. induction data as [|c rest IH]; intros alphabet out i; [done|].
  simpl. intros H Hi HSi.
  apply bind_Ok_inv in H as (idx & _ & H).
  apply bind_Ok_inv in H as (out' & Hout & [= <-]).
  destruct i as [|i]; simpl in *.
  - injection Hi as ->. destruct rest as [|c' rest']; [done|].
    simpl in HSi. injection HSi as ->.
    simpl in Hout. rewrite decide_True in Hout by done. simpl in Hout.
    apply bind_Ok_inv in Hout as (out'' & _ & [= <-]). done.
  - by eapply IH.
Qed.

Lemma mtf_encode_head (data out : bytes) :
  mtf_encode data = Ok out → head out = head data.
Proof.
  destruct data as [|b rest]; [by intros [= <-]|].
  unfold mtf_encode. cbn [mtf_encode_loop]. intros H.
  destruct (index_of_Ok b alphabet0 (alphabet0_full b)) as (idx & Hidx & Hb & Hlt).
  apply bind_Ok_inv in H as (idx' & Hidx' & H).
  rewrite Hidx in Hidx'. injection Hidx' as <-.
  apply bind_Ok_inv in H as (out' & _ & [= <-]). cbn [head]. f_equal.
  unfold alphabet0 in Hb. rewrite list_lookup_fmap in Hb.
  rewrite alphabet0_length in Hlt. rewrite lookup_seq_lt in Hb by done.
  simpl in Hb. by injection Hb.
Qed.

(** X5: in the output of [mtf_encode] a byte that repeats its predecessor is
    coded as 0, and the first byte is coded as itself. *)
Theorem mtf_encode_repeat (data out : bytes) (i : nat) (b : byte) :
  mtf_encode data = Ok out →
  head out = head data
  ∧ (data !! i = Some b → data !! S i = Some b → out !! S i = Some x00).
Proof.
  intros H. split; [by apply mtf_encode_head|]. by apply (mtf_encode_loop_repeat data alphabet0).
Qed.

Lemma mtf_encode_repeat_witness :
  head ["c"; x00; x00; "b"; x00]%byte = head ["c"; "c"; "c"; "a"; "a"]%byte
  ∧ ["c"; x00; x00; "b"; x00]%byte !! 2%nat = Some x00.
Proof.
  destruct (mtf_encode_repeat ["c"; "c"; "c"; "a"; "a"]%byte ["c"; x00; x00; "b"; x00]%byte
              1%nat "c"%byte) as [Hhead Hrep].
  - vm_compute. reflexivity.
  - split; [exact Hhead|]. apply Hrep; reflexivity.
Defined.

(** ** Burrows-Wheeler transform *)

Lemma hdb_rot_key (data : bytes) (i : nat) (c : byte) :
  data !! i = Some c → hdb (rot_key data i) = c.
Proof.
  intros Hi. unfold hdb, rot_key. rewrite (drop_S _ _ _ Hi). done.
Qed.

Lemma first_column_perm (data : bytes) : hdb <$> bwt_matrix data ≡ₚ data.
Proof.
  unfold bwt_matrix. rewrite bwt_order_perm, <- list_fmap_compose.
  assert ((hdb ∘ rot_key data) <$> seq 0 (length data) = data) as ->; [|done].
  apply list_eq. intros i. rewrite list_lookup_fmap.
  destruct (data !! i) as [c|] eqn:Hi.
  - rewrite lookup_seq_lt by (by eapply lookup_lt_Some). simpl.
    f_equal. by apply hdb_rot_key.
  - rewrite lookup_seq_ge; [done|]. by apply lookup_ge_None.
Qed.

(** X6: [bwt_transform] never raises.  The last column it returns is a
    permutation of the input; on the empty input it is empty with primary
    index 0; on any other input the primary index is a position of the
    column, and the byte there is the last byte of the input. *)
Theorem bwt_transform_permutation (data : bytes) :
  ∃ last_col primary,
    bwt_transform data = Ok (last_col, primary)
    ∧ last_col ≡ₚ data
    ∧ (data = [] → last_col = [] ∧ primary = 0%nat)
    ∧ (data ≠ [] → (primary < length last_col)%nat ∧ last_col !! primary = last data).
Proof.
  destruct (decide (length data = 0%nat)) as [Hn|Hn].
  - apply nil_length_inv in Hn as ->. exists [], 0%nat. done.
  - destruct (bwt_transform_Ok data Hn) as (primary & _ & Htf & Hp).
    eexists _, primary. split; [exact Htf|].
    assert (lastb <$> bwt_matrix data ≡ₚ data) as Hperm.
    { by rewrite <- last_column_perm_first, first_column_perm. }
    split; [done|]. split; [by intros ->|]. intros _.
    assert ((lastb <$> bwt_matrix data) !! primary = last data) as Hlast.
    { rewrite list_lookup_fmap, Hp. simpl. unfold lastb.
      destruct (last data) as [c|] eqn:Hl; [done|].
      apply last_None in Hl. by subst. }
    split; [|done].
    apply lookup_lt_is_Some. rewrite Hlast.
    destruct (last data) eqn:Hl; [done|]. apply last_None in Hl. by subst.
Qed.

Lemma first_perm_last (last : bytes) :
  fst <$> py_sorted pair_ltb (prod_swap <$> enumerate last) ≡ₚ last.
Proof.
  rewrite py_sorted_perm, <- list_fmap_compose.
  rewrite (list_fmap_ext _ snd (enumerate last)) by (by intros ? []).
  unfold enumerate. rewrite snd_zip; [done|]. by rewrite length_seq.
Qed.

(** Every row of any byte string finds its entry in [pos_first], and the
    entry is a row. *)
Lemma lf_entry_total (last : bytes) (r : nat) :
  (r < length last)%nat →
  let first := py_sorted pair_ltb (prod_swap <$> enumerate last) in
  ∃ idx,
    (b ← py_index last r; k ← py_index (occ_loop ∅ last) r;
     dict_get (pos_first_loop first (occ_loop ∅ (fst <$> first))) (b, k)) = Ok idx
    ∧ (idx < length last)%nat.
Proof.
  intros Hr first. destruct (lookup_lt_is_Some_2 _ _ Hr) as [b Hb].
  rewrite (proj2 (py_index_Ok _ _ _) Hb). simpl.
  rewrite (proj2 (py_index_Ok _ _ _) (occ_loop_lookup _ ∅ _ _ Hb)), lookup_empty.
  simpl. set (F := fst <$> first).
  assert (F ≡ₚ last) as HF by apply first_perm_last.
  destruct (filter_rank_exists (eq b) F (rank_before b last r)) as (i & b' & Hi & <- & Hrank).
  { rewrite HF. exact (filter_rank_lt (eq b) last r b Hb eq_refl). }
  fold (rank_before b F i) in Hrank.
  destruct (pos_first_is_Some first (occ_loop ∅ F) b (rank_before b last r + 1) i)
    as [idx Hidx]; [done| |].
  { rewrite (occ_loop_lookup _ _ _ _ Hi), lookup_empty. simpl. by rewrite Hrank. }
  exists idx. unfold dict_get. rewrite Hidx. split; [done|].
  apply pos_first_lookup in Hidx as [HFidx _].
  apply lookup_lt_Some in HFidx. fold F in HFidx. by rewrite HF in HFidx.
Qed.

Lemma bwt_walk_total (last : bytes) (LF : list nat) :
  length LF = length last → Forall (λ i, i < length last)%nat LF →
  ∀ (idxs : list nat) (res : bytes) (r : nat),
    (r < length last)%nat →
    ∃ res', bwt_walk last LF res r idxs = Ok res' ∧ length res' = length res.
Proof.
  intros Hlen Hall. induction idxs as [|i idxs IH]; intros res r Hr.
  - by exists res.
  - simpl. destruct (lookup_lt_is_Some_2 last r Hr) as [b Hb].
    destruct (lookup_lt_is_Some_2 LF r) as [r' Hr']; [lia|].
    rewrite (proj2 (py_index_Ok _ _ _) Hb), (proj2 (py_index_Ok _ _ _) Hr'). simpl.
    destruct (IH (<[i:=b]> res) r') as (res' & -> & Hres).
    { by apply (Forall_lookup_1 _ _ _ _ Hall Hr'). }
    exists res'. split; [done|]. by rewrite Hres, length_insert.
Qed.

Lemma bwt_inverse_walk (last_col : bytes) (primary : nat) :
  last_col ≠ [] →
  ∃ LF, bwt_inverse last_col primary =
          bwt_walk last_col LF (replicate (length last_col) x00) primary
            (reverse (seq 0 (length last_col)))
        ∧ length LF = length last_col
        ∧ Forall (λ i, i < length last_col)%nat LF.
Proof.
  intros Hne. unfold bwt_inverse.
  rewrite decide_False by (by destruct last_col).
  destruct (traverse_Ok_Forall2
    (λ r, b ← py_index last_col r; k ← py_index (occ_loop ∅ last_col) r;
          dict_get (pos_first_loop (py_sorted pair_ltb (prod_swap <$> enumerate last_col))
                      (occ_loop ∅ (fst <$> py_sorted pair_ltb
                                            (prod_swap <$> enumerate last_col)))) (b, k))
    (λ _ idx, idx < length last_col)%nat
    (seq 0 (length last_col))) as (LF & HLF & HQ).
  { intros r Hr. apply elem_of_seq in Hr. apply lf_entry_total. lia. }
  exists LF. rewrite HLF. simpl. split; [done|]. split.
  - apply Forall2_length in HQ. by rewrite length_seq in HQ.
  - apply Forall_forall. intros idx Hidx.
    apply list_elem_of_lookup in Hidx as [j Hj].
    destruct (Forall2_lookup_r _ _ _ _ _ HQ Hj) as (r & _ & Hlt). done.
Qed.

Lemma bwt_inverse_in_range (last_col : bytes) (primary : nat) :
  (primary < length last_col)%nat →
  ∃ res, bwt_inverse last_col primary = Ok res ∧ length res = length last_col.
Proof.
  intros Hp.
  destruct (bwt_inverse_walk last_col primary) as (LF & -> & Hlen & Hall).
  { intros ->. simpl in Hp. lia. }
  destruct (bwt_walk_total last_col LF Hlen Hall (reverse (seq 0 (length last_col)))
              (replicate (length last_col) x00) primary Hp) as (res & -> & Hres).
  exists res. split; [done|]. by rewrite Hres, length_replicate.
Qed.

Lemma bwt_inverse_out_of_range (last_col : bytes) (primary : nat) :
  last_col ≠ [] → (length last_col ≤ primary)%nat →
  bwt_inverse last_col primary = Raise IndexError.
Proof.
  intros Hne Hp. destruct (bwt_inverse_walk last_col primary Hne) as (LF & -> & _ & _).
  destruct last_col as [|c l]; [done|].
  change (length (c :: l)) with (S (length l)) at 2.
  rewrite seq_S, reverse_snoc. simpl bwt_walk.
  assert (py_index (c :: l) primary = Raise IndexError) as ->; [|done].
  unfold py_index. by rewrite lookup_ge_None_2.
Qed.

(** X7: [bwt_inverse] on arbitrary bytes, a last column or not.  The empty
    column gives the empty string whatever the primary index; with a primary
    index inside the column it returns as many bytes as the column has (the
    lookup in [pos_first] never misses); and with a primary index beyond a
    non-empty column it raises [IndexError]. *)
Theorem bwt_inverse_total (last_col : bytes) (primary : nat) :
  (last_col = [] → bwt_inverse last_col primary = Ok [])
  ∧ ((primary < length last_col)%nat →
       ∃ res, bwt_inverse last_col primary = Ok res ∧ length res = length last_col)
  ∧ (last_col ≠ [] → (length last_col ≤ primary)%nat →
       bwt_inverse last_col primary = Raise IndexError).
Proof.
  split; [by intros ->|]. split.
  - apply bwt_inverse_in_range.
  - apply bwt_inverse_out_of_range.
Qed.

Lemma bwt_inverse_total_witness :
  (∃ res, bwt_inverse ["z"; "z"; "a"]%byte 1 = Ok res
          ∧ length res = length ["z"; "z"; "a"]%byte)
  ∧ bwt_inverse ["z"; "z"; "a"]%byte 3 = Raise IndexError
  ∧ bwt_inverse [] 7 = Ok [].
Proof.
  split_and!.
  - apply (proj1 (proj2 (bwt_inverse_total ["z"; "z"; "a"]%byte 1))). simpl. lia.
  - apply (proj2 (proj2 (bwt_inverse_total ["z"; "z"; "a"]%byte 3))); [done | simpl; lia].
  - by apply (proj1 (bwt_inverse_total [] 7)).
Defined.

(** ** Ties: a string of one repeated byte *)

Lemma py_sorted_no_lt {A} (ltb : A → A → bool) (l : list A) :
  (∀ x y, x ∈ l → y ∈ l → ltb x y = false) → py_sorted ltb l = l.
Proof.
  induction l as [|x l IH]; intros Hlt; [done|].
  unfold py_sorted in *. simpl. rewrite IH.
  - destruct l as [|y l']; [done|]. simpl.
    rewrite Hlt; [done | by right; left | by left].
  - intros a b Ha Hb. apply Hlt; by right.
Qed.

Lemma rot_key_replicate (n i : nat) (b : byte) :
  (i ≤ n)%nat → rot_key (replicate n b) i = replicate n b.
Proof.
  intros Hi. unfold rot_key. rewrite drop_replicate, take_replicate.
  rewrite <- replicate_add. f_equal. lia.
Qed.

(** X8: on a string of one repeated byte every comparison of rotations ties,
    the stable sort keeps the rotations in their order, and [bwt_transform]
    returns the string itself with primary index 0. *)
Theorem bwt_transform_constant (n : nat) (b : byte) :
  bwt_transform (replicate n b) = Ok (replicate n b, 0%nat).
Proof.
  destruct n as [|n]; [done|].
  unfold bwt_transform. rewrite length_replicate, decide_False by done.
  rewrite py_sorted_no_lt.
  - assert (index_of 0%nat (seq 0 (S n)) = Ok 0%nat) as -> by reflexivity.
    cbn [mbind result_bind].
    rewrite (traverse_Ok_map _ (λ _, b)).
    + cbn [mbind result_bind]. f_equal. f_equal.
      generalize 0%nat. generalize (S n). clear.
      induction n as [|n IH]; intros start; [done|]. simpl. by rewrite IH.
    + intros i Hi. apply elem_of_seq in Hi.
      destruct (decide (i ≠ 0)%nat); unfold py_index;
        rewrite lookup_replicate_2 by lia; done.
  - intros i j Hi Hj. apply elem_of_seq in Hi, Hj.
    rewrite !rot_key_replicate by lia. apply bytes_ltb_irrefl.
Qed.

(** ** The composite transform *)

Lemma tf_bwt_mtf_rle_inverts (data payload : bytes) :
  tf_bwt_mtf_rle data = Ok payload →
  itf_bwt_mtf_rle payload = Ok data ∧ (4 ≤ length payload)%nat.
Proof.
  unfold tf_bwt_mtf_rle.
  destruct (bwt_roundtrip data) as (last_col & primary & -> & Hp & Hinv).
  cbn [mbind result_bind].
  destruct (mtf_roundtrip last_col) as (mtf & -> & Hmtf). cbn [mbind result_bind].
  destruct (struct_pack_I (Z.of_nat primary)) as [pre|e] eqn:Hpack; [|done].
  cbn [mbind result_bind]. intros [= <-].
  assert (0 ≤ Z.of_nat primary < 2 ^ 32) as Hrange.
  { unfold struct_pack_I in Hpack. by destruct (decide _). }
  destruct (struct_pack_unpack _ Hrange) as (pre' & Hpack' & Hlen4 & Hun).
  rewrite Hpack in Hpack'. injection Hpack' as <-.
  split; [|rewrite length_app; lia].
  unfold itf_bwt_mtf_rle.
  rewrite decide_False by (rewrite length_app; lia).
  rewrite take_app_length' by done. rewrite Hun. cbn [mbind result_bind].
  rewrite drop_app_length' by done.
  rewrite rle_roundtrip, Hmtf. cbn [mbind result_bind]. by rewrite Nat2Z.id.
Qed.

Lemma registered_transform_inverts (name : string) (fwd inv : bytes → result bytes)
    (s t : bytes) :
  (name, (fwd, inv)) ∈ TRANSFORMS → fwd s = Ok t → inv t = Ok s.
Proof.
  unfold TRANSFORMS. rewrite !elem_of_cons, elem_of_nil.
  intros [[= -> -> ->]|[[= -> -> ->]|[[= -> -> ->]|[[= -> -> ->]|[]]]]].
  - by intros [= <-].
  - intros [= <-]. by rewrite delta_roundtrip.
  - intros [= <-]. by rewrite rle_roundtrip.
  - intros H. by apply tf_bwt_mtf_rle_inverts in H as [? _].
Qed.

(** X9: whenever a registered forward transform returns, the registered
    inverse restores the input from what it returned, whatever the size of
    the input: a candidate of the strategy search can always be inverted.
    And a forward transform returns on every input, unless it is the
    composite, which can raise [struct.error] and nothing else. *)
Theorem forward_result_inverts (name : string) (fwd inv : bytes → result bytes)
    (s : bytes) :
  (name, (fwd, inv)) ∈ TRANSFORMS →
  (∀ t, fwd s = Ok t → inv t = Ok s)
  ∧ ((∃ t, fwd s = Ok t) ∨ (name = "bwt_mtf_rle" ∧ fwd s = Raise StructError)).
Proof.
  intros Hin. split; [intros t; by apply (registered_transform_inverts name)|].
  unfold TRANSFORMS in Hin. rewrite !elem_of_cons, elem_of_nil in Hin.
  destruct Hin as [[= -> -> ->]|[[= -> -> ->]|[[= -> -> ->]|[[= -> -> ->]|[]]]]];
    [left; eauto..|].
  unfold tf_bwt_mtf_rle.
  destruct (bwt_roundtrip s) as (last_col & primary & -> & _ & _).
  cbn [mbind result_bind].
  destruct (mtf_roundtrip last_col) as (mtf & -> & _). cbn [mbind result_bind].
  unfold struct_pack_I. destruct (decide _); [left; eauto | by right].
Qed.

Lemma forward_result_inverts_witness :
  itf_bwt_mtf_rle [x00; x00; x00; x00; "b"%byte; x02] = Ok ["a"%byte; "b"%byte].
Proof.
  apply (proj1 (forward_result_inverts "bwt_mtf_rle" tf_bwt_mtf_rle itf_bwt_mtf_rle
                  ["a"%byte; "b"%byte] ltac:(unfold TRANSFORMS; do 3 right; left))).
  vm_compute. reflexivity.
Defined.

(** X10: what [tf_bwt_mtf_rle] does on every input: with the last column and
    the primary index of [bwt_transform], it returns the 4-byte big-endian
    primary index followed by the run-length coded move-to-front code of the
    column when the index is below 2^32, and raises [struct.error]
    otherwise; on the empty input it returns four zero bytes. *)
Theorem tf_bwt_mtf_rle_outcome (data : bytes) :
  ∃ last_col primary mtf,
    bwt_transform data = Ok (last_col, primary)
    ∧ mtf_encode last_col = Ok mtf
    ∧ (Z.of_nat primary < 2 ^ 32 →
         ∃ prefix, tf_bwt_mtf_rle data = Ok (prefix ++ tf_rle mtf)
                   ∧ length prefix = 4%nat
                   ∧ struct_unpack_I prefix = Ok (Z.of_nat primary))
    ∧ (2 ^ 32 ≤ Z.of_nat primary → tf_bwt_mtf_rle data = Raise StructError)
    ∧ (data = [] → tf_bwt_mtf_rle data = Ok [x00; x00; x00; x00]).
Proof.
  destruct (bwt_roundtrip data) as (last_col & primary & Hbwt & _ & _).
  destruct (mtf_roundtrip last_col) as (mtf & Hmtf & _).
  exists last_col, primary, mtf. split; [done|]. split; [done|].
  unfold tf_bwt_mtf_rle. rewrite Hbwt. cbn [mbind result_bind].
  rewrite Hmtf. cbn [mbind result_bind]. split_and!.
  - intros Hlt.
    destruct (struct_pack_unpack (Z.of_nat primary)) as (pre & -> & Hlen & Hun); [lia|].
    exists pre. done.
  - intros Hge. unfold struct_pack_I. rewrite decide_False by lia. done.
  - intros ->. injection Hbwt as <- <-. by injection Hmtf as <-.
Qed.

Lemma tf_bwt_mtf_rle_outcome_witness :
  tf_bwt_mtf_rle [] = Ok [x00; x00; x00; x00].
Proof.
  destruct (tf_bwt_mtf_rle_outcome []) as (last_col & primary & mtf & _ & _ & _ & _ & Hnil).
  by apply Hnil.
Defined.

(** X11: what [itf_bwt_mtf_rle] does on a payload of at least 4 bytes,
    well-formed or not: the run stream after the prefix always decodes (an
    unpaired last byte is dropped, move-to-front never raises) to a column;
    when the column is empty or the prefix is a position of it the result is
    a byte string as long as the column; and when the prefix is beyond a
    non-empty column the transform raises [IndexError].  It raises nothing
    else. *)
Theorem itf_bwt_mtf_rle_outcome (payload : bytes) :
  (4 ≤ length payload)%nat →
  ∃ primary col,
    struct_unpack_I (take 4 payload) = Ok primary
    ∧ mtf_decode (itf_rle (drop 4 payload)) = Ok col
    ∧ length col = length (itf_rle (drop 4 payload))
    ∧ (col = [] ∨ primary < Z.of_nat (length col) →
         ∃ res, itf_bwt_mtf_rle payload = Ok res ∧ length res = length col)
    ∧ (col ≠ [] → Z.of_nat (length col) ≤ primary →
         itf_bwt_mtf_rle payload = Raise IndexError).
Proof.
  intros Hlen.
  destruct (struct_unpack_I_total (take 4 payload)) as [primary Hun].
  { rewrite length_take. lia. }
  pose proof (struct_unpack_I_range _ _ Hun) as Hrange.
  destruct (mtf_decode_total (itf_rle (drop 4 payload))) as (col & Hcol & Hcl & _).
  exists primary, col. split; [done|]. split; [done|]. split; [done|].
  unfold itf_bwt_mtf_rle. rewrite decide_False by lia.
  rewrite Hun. cbn [mbind result_bind]. rewrite Hcol. cbn [mbind result_bind].
  split.
  - intros [->|Hp]; [by exists []|].
    apply bwt_inverse_in_range. lia.
  - intros Hne Hp. apply bwt_inverse_out_of_range; [done | lia].
Qed.

Lemma itf_bwt_mtf_rle_outcome_witness :
  (∃ res, itf_bwt_mtf_rle [x00; x00; x00; x01; "z"%byte; x03; "q"%byte] = Ok res
          ∧ length res = 3%nat)
  ∧ itf_bwt_mtf_rle [x00; x00; x00; x03; "z"%byte; x03] = Raise IndexError.
Proof.
  split.
  - destruct (itf_bwt_mtf_rle_outcome [x00; x00; x00; x01; "z"%byte; x03; "q"%byte])
      as (primary & col & Hun & Hcol & Hlen & Hok & _); [simpl; lia|].
    assert (length (itf_rle (drop 4 [x00; x00; x00; x01; "z"%byte; x03; "q"%byte])) = 3%nat)
      as Hl3 by reflexivity.
    rewrite Hl3 in Hlen. vm_compute in Hun. injection Hun as <-.
    rewrite <- Hlen. apply Hok. right. rewrite Hlen. reflexivity.
  - destruct (itf_bwt_mtf_rle_outcome [x00; x00; x00; x03; "z"%byte; x03])
      as (primary & col & Hun & Hcol & Hlen & _ & Herr); [simpl; lia|].
    assert (length (itf_rle (drop 4 [x00; x00; x00; x03; "z"%byte; x03])) = 3%nat)
      as Hl3 by reflexivity.
    rewrite Hl3 in Hlen. vm_compute in Hun. injection Hun as <-.
    apply Herr; [by destruct col | rewrite Hlen; vm_compute; discriminate].
Defined.

(** * Further properties of the container and of unpack *)

(** ** The header *)

(** X12: [encode_header] followed by [parse_header].  Metadata of fewer than
    2^32 bytes are written as the magic, the version, their length and
    themselves, 12 bytes more than the metadata; followed by any payload
    they parse back into the version, what [json.loads] makes of the
    metadata, and the payload untouched.  Longer metadata make
    [encode_header] raise [struct.error]. *)
Theorem encode_header_roundtrip (P : platform) (header : pyval) (cdata : bytes) :
  (Z.of_nat (length (json_dumps P header)) < 2 ^ 32 →
     ∃ hdr, encode_header P header = Ok hdr
            ∧ length hdr = (12 + length (json_dumps P header))%nat
            ∧ take 4 hdr = MAGIC
            ∧ parse_header P (hdr ++ cdata) =
                (h ← json_loads P (json_dumps P header); Ok (VERSION, h, cdata)))
  ∧ (2 ^ 32 ≤ Z.of_nat (length (json_dumps P header)) →
       encode_header P header = Raise StructError).
Proof.
  split.
  - intros Hlen. destruct (encode_header_Ok P header Hlen) as [hdr Hhdr].
    exists hdr. split; [done|].
    pose proof (parse_encode_header P header hdr cdata Hhdr) as Hparse.
    unfold encode_header in Hhdr.
    destruct (struct_pack_unpack (Z.of_nat (length (json_dumps P header))))
      as (l & Hl & Hl4 & _); [lia|].
    rewrite Hl in Hhdr. cbn in Hhdr. injection Hhdr as <-.
    split_and!; [|done|done].
    cbn [length]. rewrite length_app. lia.
  - intros Hge. unfold encode_header. cbn.
    unfold struct_pack_I at 1. by rewrite decide_False by lia.
Qed.

Lemma encode_header_roundtrip_witness :
  ∃ hdr, encode_header (demo_platform PNone) PNone = Ok hdr
         ∧ length hdr = 12%nat
         ∧ take 4 hdr = MAGIC
         ∧ parse_header (demo_platform PNone) (hdr ++ [xaa; xbb]) =
             Ok (VERSION, PNone, [xaa; xbb]).
Proof.
  apply (proj1 (encode_header_roundtrip (demo_platform PNone) PNone [xaa; xbb])).
  reflexivity.
Defined.

Lemma parse_header_split (P : platform) (v rest : bytes) :
  length v = 4%nat →
  parse_header P (MAGIC ++ v ++ rest) =
    if decide (length rest < 4)%nat then Raise HeaderTooSmall
    else
      version ← struct_unpack_I v;
      hlen ← struct_unpack_I (take 4 rest);
      if decide (4 + hlen > Z.of_nat (length rest)) then Raise CorruptHeaderLength
      else
        header ← json_loads P (take (Z.to_nat hlen) (drop 4 rest));
        Ok (version, header, drop (4 + Z.to_nat hlen) rest).
Proof.
  intros Hv. set (blob := MAGIC ++ v ++ rest).
  assert (length blob = (8 + length rest)%nat) as Hlen.
  { unfold blob. rewrite !length_app, Hv. done. }
  assert (take 4 blob = MAGIC) as Htake by (by apply take_app_length').
  assert (drop 4 blob = v ++ rest) as Hd4 by (by apply drop_app_length').
  assert (drop 8 blob = rest) as Hd8.
  { change 8%nat with (4 + 4)%nat. rewrite <- drop_drop, Hd4. by apply drop_app_length'. }
  unfold parse_header. rewrite Hlen, Htake, Hd4, Hd8.
  rewrite (take_app_length' v rest 4) by done.
  destruct (decide (length rest < 4)%nat) as [Hs|Hs].
  - by rewrite decide_True by lia.
  - rewrite decide_False by lia. rewrite decide_False by (by intros ?).
    destruct (struct_unpack_I v) as [version|e]; [|reflexivity].
    cbn [mbind result_bind].
    destruct (struct_unpack_I (take 4 rest)) as [hlen|e]; [|reflexivity].
    cbn [mbind result_bind].
    destruct (decide (4 + hlen > Z.of_nat (length rest))) as [Hbig|Hfit].
    + by rewrite decide_True by lia.
    + rewrite decide_False by lia.
      assert (drop 12 blob = drop 4 rest) as ->.
      { change 12%nat with (8 + 4)%nat. by rewrite <- drop_drop, Hd8. }
      assert (drop (12 + Z.to_nat hlen) blob = drop (4 + Z.to_nat hlen) rest) as ->.
      { change (12 + Z.to_nat hlen)%nat with (8 + (4 + Z.to_nat hlen))%nat.
        by rewrite <- drop_drop, Hd8. }
      reflexivity.
Qed.

Lemma unpack_bytes_version (P : platform) (v v' rest : bytes) :
  length v = 4%nat → length v' = 4%nat →
  unpack_bytes P (MAGIC ++ v ++ rest) = unpack_bytes P (MAGIC ++ v' ++ rest).
Proof.
  intros Hv Hv'. unfold unpack_bytes. rewrite !parse_header_split by done.
  destruct (decide (length rest < 4)%nat); [reflexivity|].
  destruct (struct_unpack_I_total v Hv) as [version ->].
  destruct (struct_unpack_I_total v' Hv') as [version' ->].
  cbn [mbind result_bind].
  destruct (struct_unpack_I (take 4 rest)) as [hlen|e]; [|reflexivity].
  cbn [mbind result_bind].
  destruct (decide _); [reflexivity|].
  destruct (json_loads P _) as [h|e]; reflexivity.
Qed.

(** X13: the version word of an artifact is read and never checked: two
    artifacts that differ in the four version bytes only unpack to the same
    result, an error or the restored bytes. *)
Theorem unpack_ignores_version (P : platform) (qpath : string) (w w' : world)
    (v v' rest : bytes) :
  length v = 4%nat → length v' = 4%nat →
  files w !! qpath = Some (MAGIC ++ v ++ rest) →
  files w' !! qpath = Some (MAGIC ++ v' ++ rest) →
  (qdsx_unpack P qpath true w).1 = (qdsx_unpack P qpath true w').1.
Proof.
  intros Hv Hv' Hw Hw'. rewrite !qdsx_unpack_return_bytes, Hw, Hw'. cbn [fst].
  by rewrite (unpack_bytes_version P v v' rest).
Qed.

Lemma unpack_ignores_version_witness :
  (qdsx_unpack (demo_platform (PDict nameless_header)) "a.qdsx" true
     (demo_world "a.qdsx" blob_bare)).1
  = (qdsx_unpack (demo_platform (PDict nameless_header)) "a.qdsx" true
       (demo_world "a.qdsx" (MAGIC ++ [xff; xff; xff; xff] ++ [x00; x00; x00; x00]))).1.
Proof.
  apply (unpack_ignores_version _ "a.qdsx" _ _ [x00; x00; x00; x02] [xff; xff; xff; xff]
           [x00; x00; x00; x00]); reflexivity.
Defined.

(** ** Unpack *)

Lemma qdsx_unpack_write (P : platform) (qpath : string) (w : world) :
  qdsx_unpack P qpath false w =
    match files w !! qpath with
    | Some blob =>
        match unpack_bytes P blob with
        | Ok raw =>
            (Ok (Written (with_suffix_empty P qpath)),
             {| files := <[with_suffix_empty P qpath := raw]> (files w);
                clock := clock w;
                log_lines := log_lines w
                               ++ [LogUnpack qpath (with_suffix_empty P qpath)] |})
        | Raise e => (Raise e, w)
        end
    | None => (Raise (OSError qpath), w)
    end.
Proof.
  unfold qdsx_unpack. rewrite io_bind_unfold. unfold read_file.
  destruct (files w !! qpath) as [blob|]; [|done].
  rewrite io_bind_unfold. unfold io_lift, unpack_bytes.
  destruct (parse_header P blob) as [[[v header] cdata]|e]; [|done].
  cbn [mbind result_bind]. rewrite io_bind_unfold.
  destruct (restore P header cdata) as [raw|e]; done.
Qed.

(** X14: the two modes of [qdsx_unpack] agree.  When unpacking fails, both
    raise the same exception and leave files and log as they were: nothing is
    written before the checksum has passed.  When it succeeds, the mode that
    returns the bytes changes nothing, and the other writes exactly those
    bytes to the path without its suffix, appends one line to the log and
    returns that path. *)
Theorem qdsx_unpack_modes (P : platform) (qpath : string) (w : world) :
  (∃ e, qdsx_unpack P qpath true w = (Raise e, w)
        ∧ qdsx_unpack P qpath false w = (Raise e, w))
  ∨ (∃ raw,
       qdsx_unpack P qpath true w = (Ok (Restored raw), w)
       ∧ qdsx_unpack P qpath false w =
           (Ok (Written (with_suffix_empty P qpath)),
            {| files := <[with_suffix_empty P qpath := raw]> (files w);
               clock := clock w;
               log_lines := log_lines w
                              ++ [LogUnpack qpath (with_suffix_empty P qpath)] |})).
Proof.
  rewrite qdsx_unpack_return_bytes, qdsx_unpack_write.
  destruct (files w !! qpath) as [blob|]; [|left; eauto].
  destruct (unpack_bytes P blob) as [raw|e]; [right|left]; eauto.
Qed.

Lemma restore_Ok_dict (P : platform) (header : pyval) (cdata raw : bytes) :
  restore P header cdata = Ok raw →
  ∃ m, header = PDict m ∧ m !! "orig_sha256" = Some (PStr (sha256_bytes P raw)).
Proof.
  destruct header as [| | | | | | |m]; try done.
  intros H. exists m. split; [done|].
  rewrite restore_dict in H. cbn zeta in H.
  apply bind_Ok_inv in H as (raw' & _ & H).
  apply bind_Ok_inv in H as (stored & Hstored & H).
  unfold dict_getitem in Hstored.
  destruct (m !! "orig_sha256") as [v|]; [|done]. injection Hstored as ->.
  destruct stored as [| | | |s| | |]; try done.
  cbn [py_eq_str] in H. case_bool_decide as Heq; [|done].
  cbn [negb] in H. injection H as <-. by rewrite Heq.
Qed.

(** X15: [qdsx_unpack] never returns bytes whose digest differs from the
    stored one: whenever it returns bytes, the artifact parses, its metadata
    are a dictionary, and their [orig_sha256] is the string
    [sha256_bytes] gives on exactly those bytes. *)
Theorem unpack_checksum_sound (P : platform) (qpath : string) (w w' : world)
    (raw : bytes) :
  qdsx_unpack P qpath true w = (Ok (Restored raw), w') →
  ∃ blob version m cdata,
    files w !! qpath = Some blob
    ∧ parse_header P blob = Ok (version, PDict m, cdata)
    ∧ m !! "orig_sha256" = Some (PStr (sha256_bytes P raw)).
Proof.
  rewrite qdsx_unpack_return_bytes.
  destruct (files w !! qpath) as [blob|]; [|done].
  unfold unpack_bytes.
  destruct (parse_header P blob) as [[[version header] cdata]|e] eqn:Hparse; [|done].
  cbn [mbind result_bind].
  destruct (restore P header cdata) as [raw'|e] eqn:Hres; [|done].
  intros [= <- <-].
  apply restore_Ok_dict in Hres as (m & -> & Hsha). eauto 8.
Qed.

Lemma unpack_checksum_sound_witness :
  ∃ blob version m cdata,
    files (demo_world "a.qdsx" blob_bare) !! "a.qdsx" = Some blob
    ∧ parse_header (demo_platform (PDict nameless_header)) blob = Ok (version, PDict m, cdata)
    ∧ m !! "orig_sha256"
      = Some (PStr (sha256_bytes (demo_platform (PDict nameless_header)) [])).
Proof.
  apply (unpack_checksum_sound (demo_platform (PDict nameless_header)) "a.qdsx"
           (demo_world "a.qdsx" blob_bare) (demo_world "a.qdsx" blob_bare) []).
  reflexivity.
Defined.

(** X16: the empty-payload case of unpack looks at nothing but the stored
    hash.  When [orig_size] compares equal to 0 (the integer 0, [False] or
    the float 0.0, or the key is missing) and the codec name is ["none"] or
    missing, the payload bytes and the transform name are ignored, unknown
    names included: the result is the empty string when the stored hash is
    the digest of the empty string, [ChecksumMismatch] when it is anything
    else, and [KeyError] when the hash is missing. *)
Theorem restore_empty_case (P : platform) (m : gmap string pyval) (cdata : bytes) :
  py_eq_zero (default (PInt 0) (m !! "orig_size")) = true →
  default (PStr "none") (m !! "codec") = PStr "none" →
  restore P (PDict m) cdata =
    match m !! "orig_sha256" with
    | None => Raise (KeyError (PStr "orig_sha256"))
    | Some stored =>
        if py_eq_str stored (sha256_bytes P []) then Ok [] else Raise ChecksumMismatch
    end.
Proof.
  intros Hz Hc. rewrite restore_dict. cbn zeta. rewrite Hz, Hc.
  cbn [py_eq_str]. rewrite bool_decide_true by done. cbn [andb mbind result_bind].
  unfold dict_getitem. destruct (m !! "orig_sha256") as [stored|]; [|done].
  cbn [mbind result_bind]. by destruct (py_eq_str stored (sha256_bytes P [])).
Qed.

Lemma restore_empty_case_witness :
  restore (demo_platform PNone) (PDict falsy_header) [xaa; xbb] = Ok [].
Proof.
  rewrite (restore_empty_case (demo_platform PNone) falsy_header [xaa; xbb]);
    reflexivity.
Defined.

(** * Further properties of pack *)

Lemma string_app_empty (s : string) : s +:+ EmptyString = s.
Proof.
  induction s as [|a s IH]; [done|].
  change (String a s +:+ EmptyString) with (String a (s +:+ EmptyString)).
  by rewrite IH.
Qed.

Lemma artifact_path_ne (path : string) : path +:+ ".qdsx" ≠ path.
Proof.
  intros H. rewrite <- (string_app_empty path) in H at 2.
  by apply (inj (String.append path)) in H.
Qed.

(** What [pack_artifact] does, by the result of the search. *)
Lemma pack_artifact_eq (P : platform) (path : string) (raw : bytes) (w : world) :
  pack_artifact P path raw w =
    match (strategy_search P path raw).1 with
    | None => (Raise NoViableStrategy, logged (strategy_search P path raw).2 w)
    | Some (_, (tname, cname, cdata)) =>
        match encode_header P (make_header P path (length raw) (sha256_bytes P raw)
                                 tname cname (clock w)) with
        | Ok hdr =>
            (Ok (path +:+ ".qdsx", (tname, cname, cdata)),
             with_file (path +:+ ".qdsx") (hdr ++ cdata)
               (logged (strategy_search P path raw).2 w))
        | Raise e => (Raise e, logged (strategy_search P path raw).2 w)
        end
    end.
Proof.
  unfold pack_artifact.
  destruct (strategy_search P path raw) as [[[best_size [[tname cname] cdata]]|] failures];
    rewrite io_bind_unfold; cbn [log_all fst snd]; [|done].
  rewrite io_bind_unfold. cbn [strftime]. rewrite io_bind_unfold. unfold io_lift.
  cbn [clock].
  destruct (encode_header P _) as [hdr|e]; [|done].
  rewrite io_bind_unfold. done.
Qed.

(** What [qdsx_pack] does on a non-empty file, by the outcome of
    [pack_artifact] and of the self-check. *)
Lemma qdsx_pack_eq (P : platform) (path : string) (raw : bytes) (w : world) :
  files w !! path = Some raw → raw ≠ [] →
  qdsx_pack P path w =
    match pack_artifact P path raw w with
    | (Ok (out, (tname, cname, _)), w1) =>
        match (qdsx_unpack P out true w1).1 with
        | Ok (Restored r) =>
            if decide (r = raw) then (Ok out, logged [LogPack path out tname cname] w1)
            else (Raise IntegrityFailure, w1)
        | Ok (Written _) => (Raise IntegrityFailure, w1)
        | Raise e => (Raise e, w1)
        end
    | (Raise e, w1) => (Raise e, w1)
    end.
Proof.
  intros Hraw Hne. unfold qdsx_pack. rewrite io_bind_unfold. unfold read_file.
  rewrite Hraw. destruct raw as [|b raw]; [done|].
  rewrite io_bind_unfold.
  destruct (pack_artifact P path (b :: raw) w) as [[[out [[tname cname] cdata]]|e] w1];
    [|done].
  cbn iota beta. rewrite io_bind_unfold, self_check_eq.
  destruct ((qdsx_unpack P out true w1).1) as [[r|o]|e]; [|done|done].
  destruct (decide (r = b :: raw)); [|done].
  rewrite io_bind_unfold. done.
Qed.

(** X17: when no pair of a transform and a codec succeeds on a non-empty
    file, [qdsx_pack] raises [NoViableStrategy] after logging the failures,
    and writes no file. *)
Theorem qdsx_pack_no_candidate (P : platform) (path : string) (raw : bytes) (w : world) :
  files w !! path = Some raw → raw ≠ [] → candidates P raw = [] →
  qdsx_pack P path w = (Raise NoViableStrategy, logged (strategy_search P path raw).2 w).
Proof.
  intros Hraw Hne Hnone. rewrite (qdsx_pack_eq P path raw w Hraw Hne), pack_artifact_eq.
  by rewrite strategy_search_best, Hnone.
Qed.

Lemma qdsx_pack_no_candidate_witness :
  qdsx_pack failing_platform "g" (demo_world "g" aaa)
  = (Raise NoViableStrategy,
     logged (strategy_search failing_platform "g" aaa).2 (demo_world "g" aaa))
  ∧ files (logged (strategy_search failing_platform "g" aaa).2 (demo_world "g" aaa))
    = files (demo_world "g" aaa)
  ∧ length (strategy_search failing_platform "g" aaa).2 = 12%nat.
Proof.
  split; [|split; reflexivity].
  apply (qdsx_pack_no_candidate failing_platform "g" aaa); [reflexivity|done|reflexivity].
Defined.

Lemma logged_frame (es : list log_event) (w : world) :
  clock (logged es w) = clock w ∧ files (logged es w) = files w.
Proof. done. Qed.



(** X19: a failed self-check leaves the artifact behind.  When the artifact
    of a non-empty file has been written and unpacking it does not return
    the input, [qdsx_pack] raises: the very exception of [qdsx_unpack] when
    that raises, and [IntegrityFailure] when that returns other bytes.  It
    logs no [PACK] line, and the artifact stays at [path.qdsx]: nothing
    removes it. *)
Theorem qdsx_pack_failed_check (P : platform) (path : string) (raw : bytes)
    (w w1 : world) (out : string) (cand : candidate) :
  files w !! path = Some raw → raw ≠ [] →
  pack_artifact P path raw w = (Ok (out, cand), w1) →
  (qdsx_unpack P out true w1).1 ≠ Ok (Restored raw) →
  ∃ e hdr,
    qdsx_pack P path w = (Raise e, w1)
    ∧ (∀ e', (qdsx_unpack P out true w1).1 = Raise e' → e = e')
    ∧ (∀ u, (qdsx_unpack P out true w1).1 = Ok u → e = IntegrityFailure)
    ∧ out = path +:+ ".qdsx"
    ∧ files w1 !! out = Some (hdr ++ cand.2)
    ∧ log_lines w1 = log_lines w ++ (strategy_search P path raw).2.
Proof.
  intros Hraw Hne Hart Hbad.
  rewrite (qdsx_pack_eq P path raw w Hraw Hne), Hart.
  rewrite pack_artifact_eq in Hart.
  destruct ((strategy_search P path raw).1) as [[size [[tname cname] cdata]]|]; [|done].
  destruct (encode_header P _) as [hdr|e0]; [|done].
  injection Hart as <- <- <-.
  assert (files (with_file (path +:+ ".qdsx") (hdr ++ cdata)
                   (logged (strategy_search P path raw).2 w)) !! (path +:+ ".qdsx")
          = Some (hdr ++ cdata)) as Hfile.
  { cbn [with_file files]. by rewrite lookup_insert_eq. }
  destruct ((qdsx_unpack P _ true _).1) as [[r|o]|e] eqn:Hun.
  - destruct (decide (r = raw)) as [->|Hdiff]; [done|].
    exists IntegrityFailure, hdr. split_and!; done.
  - exists IntegrityFailure, hdr. split_and!; done.
  - exists e, hdr. split_and!; try done. by intros e' [= <-].
Qed.

(** X19 at work: metadata read back with the wrong transform make the
    self-check return other bytes, metadata read back with an unknown codec
    make it raise [KeyError]; the artifact of [g] is there in both cases. *)
Lemma qdsx_pack_failed_check_witness :
  qdsx_pack (demo_platform demo_wrong_header) "g" (demo_world "g" aaa)
    = (Raise IntegrityFailure,
       (pack_artifact (demo_platform demo_wrong_header) "g" aaa (demo_world "g" aaa)).2)
  ∧ qdsx_pack (demo_platform (PDict (named_header "none" "bogus"))) "g" (demo_world "g" aaa)
    = (Raise (KeyError (PStr "bogus")),
       (pack_artifact (demo_platform (PDict (named_header "none" "bogus"))) "g" aaa
          (demo_world "g" aaa)).2)
  ∧ files (pack_artifact (demo_platform (PDict (named_header "none" "bogus"))) "g" aaa
             (demo_world "g" aaa)).2 !! "g.qdsx"
    = Some (blob_bare ++ ["a"%byte; x03]).
Proof.
  destruct (qdsx_pack_failed_check (demo_platform demo_wrong_header) "g" aaa
              (demo_world "g" aaa)
              (pack_artifact (demo_platform demo_wrong_header) "g" aaa
                 (demo_world "g" aaa)).2
              "g.qdsx" ("rle", "zlib", ["a"%byte; x03]))
    as (e & hdr & Hp & _ & Hret & _).
  { reflexivity. }
  { discriminate. }
  { vm_compute. reflexivity. }
  { vm_compute. discriminate. }
  destruct (qdsx_pack_failed_check (demo_platform (PDict (named_header "none" "bogus")))
              "g" aaa (demo_world "g" aaa)
              (pack_artifact (demo_platform (PDict (named_header "none" "bogus"))) "g" aaa
                 (demo_world "g" aaa)).2
              "g.qdsx" ("rle", "zlib", ["a"%byte; x03]))
    as (e2 & hdr2 & Hp2 & Hraise & _ & _ & Hfile & _).
  { reflexivity. }
  { discriminate. }
  { vm_compute. reflexivity. }
  { vm_compute. discriminate. }
  rewrite (Hret (Restored ["a"%byte; x03])) in Hp by (vm_compute; reflexivity).
  rewrite (Hraise (KeyError (PStr "bogus"))) in Hp2 by (vm_compute; reflexivity).
  split; [exact Hp|]. split; [exact Hp2|].
  vm_compute. reflexivity.
Defined.

(** ** Pack succeeds where the platform behaves *)

Lemma registry_find_elem {V} (reg : list (string * V)) (k : string) (v : V) :
  NoDup reg.*1 → (k, v) ∈ reg → registry_find reg k = Some v.
Proof.
  induction reg as [|[k' v'] reg IH]; intros Hnd Hin; [by apply elem_of_nil in Hin|].
  cbn [fmap list_fmap fst] in Hnd. apply NoDup_cons in Hnd as [Hk' Hnd].
  cbn [registry_find]. apply elem_of_cons in Hin as [[= <- <-]|Hin].
  - by rewrite decide_True.
  - rewrite decide_False; [by apply IH|].
    intros ->. apply Hk'. apply list_elem_of_fmap. by exists (k, v).
Qed.

Lemma TRANSFORMS_names : NoDup TRANSFORMS.*1.
Proof. cbn. compute_done. Qed.

Lemma CODECS_names (P : platform) : NoDup (CODECS P).*1.
Proof. cbn. compute_done. Qed.

Lemma elem_of_candidates (P : platform) (raw : bytes) (tname cname : string)
    (cdata : bytes) :
  (tname, cname, cdata) ∈ candidates P raw →
  ∃ fwd inv enc dec tdata,
    (tname, (fwd, inv)) ∈ TRANSFORMS ∧ fwd raw = Ok tdata
    ∧ (cname, (enc, dec)) ∈ CODECS P ∧ enc tdata = Ok cdata.
Proof.
  unfold candidates. intros Hin.
  apply list_elem_of_bind in Hin as ([tname' [fwd inv]] & Hin & Ht).
  destruct (fwd raw) as [tdata|e] eqn:Hfwd; [|by apply elem_of_nil in Hin].
  unfold codec_candidates in Hin.
  apply list_elem_of_bind in Hin as ([cname' [enc dec]] & Hin & Hc).
  destruct (enc tdata) as [cdata'|e] eqn:Henc; [|by apply elem_of_nil in Hin].
  apply list_elem_of_singleton in Hin. injection Hin as -> -> ->.
  eauto 10.
Qed.

(** The selected candidate restores the input, where the codecs invert. *)
Lemma restore_selected (P : platform) (path : string) (raw : bytes) (ts : string)
    (tname cname : string) (cdata : bytes) :
  raw ≠ [] →
  (∀ name enc dec x y, (name, (enc, dec)) ∈ CODECS P → enc x = Ok y → dec y = Ok x) →
  (tname, cname, cdata) ∈ candidates P raw →
  restore P (make_header P path (length raw) (sha256_bytes P raw) tname cname ts) cdata
  = Ok raw.
Proof.
  intros Hne Hcodecs Hin.
  apply elem_of_candidates in Hin
    as (fwd & inv & enc & dec & tdata & Ht & Hfwd & Hc & Henc).
  destruct (make_header_fields P path (length raw) (sha256_bytes P raw) tname cname ts)
    as (m & -> & Hmt & Hmc & Hms & Hsha).
  rewrite restore_dict. cbn zeta. rewrite Hmt, Hmc, Hms.
  cbn [default from_option id py_eq_zero].
  rewrite bool_decide_false by (destruct raw; [done | cbn [length]; lia]).
  cbn [andb].
  rewrite (registry_get_known _ _ _ (registry_find_elem _ _ _ (CODECS_names P) Hc)).
  cbn [mbind result_bind].
  rewrite (registry_get_known _ _ _ (registry_find_elem _ _ _ TRANSFORMS_names Ht)).
  cbn [mbind result_bind snd].
  rewrite (Hcodecs _ _ _ _ _ Hc Henc). cbn [mbind result_bind].
  rewrite (registered_transform_inverts _ _ _ _ _ Ht Hfwd). cbn [mbind result_bind].
  unfold dict_getitem. rewrite Hsha. cbn [mbind result_bind py_eq_str].
  by rewrite bool_decide_true.
Qed.

(** X20: [qdsx_pack] succeeds where the platform behaves.  On a non-empty
    file for which the search selects a candidate, with codecs whose
    decompression undoes their compression, and with the metadata of the
    selection below 2^32 bytes and preserved by [json.dumps] and
    [json.loads], [qdsx_pack] returns [path.qdsx]; the artifact is the
    encoded metadata followed by the selected compressed bytes; unpacking it
    returns the input; and the log ends with the [PACK] line naming the
    selection. *)
Theorem qdsx_pack_succeeds (P : platform) (path : string) (raw : bytes) (w : world)
    (size : nat) (tname cname : string) (cdata : bytes) :
  files w !! path = Some raw → raw ≠ [] →
  (∀ name enc dec x y, (name, (enc, dec)) ∈ CODECS P → enc x = Ok y → dec y = Ok x) →
  (strategy_search P path raw).1 = Some (size, (tname, cname, cdata)) →
  Z.of_nat (length (json_dumps P (make_header P path (length raw) (sha256_bytes P raw)
                                    tname cname (clock w)))) < 2 ^ 32 →
  json_loads P (json_dumps P (make_header P path (length raw) (sha256_bytes P raw)
                                tname cname (clock w)))
    = Ok (make_header P path (length raw) (sha256_bytes P raw) tname cname (clock w)) →
  ∃ hdr w',
    qdsx_pack P path w = (Ok (path +:+ ".qdsx"), w')
    ∧ first_min (candidates P raw) (tname, cname, cdata)
    ∧ encode_header P (make_header P path (length raw) (sha256_bytes P raw)
                         tname cname (clock w)) = Ok hdr
    ∧ files w' !! (path +:+ ".qdsx") = Some (hdr ++ cdata)
    ∧ qdsx_unpack P (path +:+ ".qdsx") true w' = (Ok (Restored raw), w')
    ∧ log_lines w' = log_lines w ++ (strategy_search P path raw).2
                       ++ [LogPack path (path +:+ ".qdsx") tname cname].
Proof.
  intros Hraw Hne Hcodecs Hsel Hlen Hjson.
  assert (first_min (candidates P raw) (tname, cname, cdata)) as Hmin.
  { pose proof (foldl_keep_smaller (candidates P raw)) as H.
    rewrite <- strategy_search_best with (path := path) in H.
    rewrite Hsel in H. by destruct H. }
  assert ((tname, cname, cdata) ∈ candidates P raw) as Hin.
  { destruct Hmin as (pre & post & -> & _). apply elem_of_app. right. left. }
  destruct (encode_header_Ok P _ Hlen) as [hdr Hhdr].
  set (header := make_header P path (length raw) (sha256_bytes P raw) tname cname (clock w))
    in *.
  set (w1 := with_file (path +:+ ".qdsx") (hdr ++ cdata)
               (logged (strategy_search P path raw).2 w)).
  assert (∀ w2, files w2 !! (path +:+ ".qdsx") = Some (hdr ++ cdata) →
            qdsx_unpack P (path +:+ ".qdsx") true w2 = (Ok (Restored raw), w2)) as Hun.
  { intros w2 Hw2. rewrite qdsx_unpack_return_bytes, Hw2. unfold unpack_bytes.
    rewrite (parse_encode_header P header hdr cdata Hhdr), Hjson.
    cbn [mbind result_bind]. unfold header.
    by rewrite (restore_selected P path raw (clock w) tname cname cdata Hne Hcodecs Hin). }
  assert (files w1 !! (path +:+ ".qdsx") = Some (hdr ++ cdata)) as Hfile.
  { unfold w1. cbn [with_file files]. by rewrite lookup_insert_eq. }
  exists hdr, (logged [LogPack path (path +:+ ".qdsx") tname cname] w1).
  split_and!; try done.
  - rewrite (qdsx_pack_eq P path raw w Hraw Hne), pack_artifact_eq, Hsel.
    fold header. rewrite Hhdr. fold w1. rewrite (Hun w1 Hfile). cbn [fst].
    by rewrite decide_True.
  - by apply Hun.
  - unfold w1. cbn [logged with_file log_lines]. by rewrite app_assoc.
Qed.

Lemma qdsx_pack_succeeds_witness :
  ∃ hdr w',
    qdsx_pack (demo_platform demo_header) "g" (demo_world "g" aaa) = (Ok ("g" +:+ ".qdsx"), w')
    ∧ first_min (candidates (demo_platform demo_header) aaa) ("rle", "zlib", ["a"%byte; x03])
    ∧ encode_header (demo_platform demo_header)
        (make_header (demo_platform demo_header) "g" (length aaa)
           (sha256_bytes (demo_platform demo_header) aaa) "rle" "zlib"
           (clock (demo_world "g" aaa))) = Ok hdr
    ∧ files w' !! ("g" +:+ ".qdsx") = Some (hdr ++ ["a"%byte; x03])
    ∧ qdsx_unpack (demo_platform demo_header) ("g" +:+ ".qdsx") true w'
      = (Ok (Restored aaa), w')
    ∧ log_lines w'
      = log_lines (demo_world "g" aaa)
        ++ (strategy_search (demo_platform demo_header) "g" aaa).2
        ++ [LogPack "g" ("g" +:+ ".qdsx") "rle" "zlib"].
Proof.
  apply (qdsx_pack_succeeds (demo_platform demo_header) "g" aaa (demo_world "g" aaa) 2).
  - reflexivity.
  - discriminate.
  - intros name enc dec x y Hin. unfold CODECS in Hin.
    rewrite !elem_of_cons, elem_of_nil in Hin.
    destruct Hin as [[= -> -> ->]|[[= -> -> ->]|[[= -> -> ->]|[]]]]; cbn.
    + by intros [= ->].
    + by intros [= <-].
    + discriminate.
  - vm_compute. reflexivity.
  - reflexivity.
  - reflexivity.
Defined.

(** ** The search against the plain codecs *)

Lemma candidates_intro (P : platform) (raw tdata cdata : bytes) (tname cname : string)
    (fwd inv enc dec : bytes → result bytes) :
  (tname, (fwd, inv)) ∈ TRANSFORMS → fwd raw = Ok tdata →
  (cname, (enc, dec)) ∈ CODECS P → enc tdata = Ok cdata →
  (tname, cname, cdata) ∈ candidates P raw.
Proof.
  intros Ht Hfwd Hc Henc. unfold candidates.
  apply list_elem_of_bind. exists (tname, (fwd, inv)). split; [|done].
  rewrite Hfwd. unfold codec_candidates.
  apply list_elem_of_bind. exists (cname, (enc, dec)). split; [|done].
  rewrite Henc. by apply list_elem_of_singleton.
Qed.

(** X21: the search never does worse than a plain codec.  If any codec
    compresses the raw input, the search selects a candidate, and the
    selected compressed bytes are no longer than what any codec makes of the
    raw input: the transform [none] is always among the candidates. *)
Theorem search_beats_plain_codecs (P : platform) (path : string) (raw y : bytes)
    (cname : string) (enc dec : bytes → result bytes) :
  (cname, (enc, dec)) ∈ CODECS P → enc raw = Ok y →
  ∃ size tname' cname' cdata,
    (strategy_search P path raw).1 = Some (size, (tname', cname', cdata))
    ∧ size = length cdata
    ∧ (length cdata ≤ length y)%nat
    ∧ ∀ cname2 enc2 dec2 y2,
        (cname2, (enc2, dec2)) ∈ CODECS P → enc2 raw = Ok y2 →
        (length cdata ≤ length y2)%nat.
Proof.
  intros Hc Henc.
  assert (∀ cname2 enc2 dec2 y2,
            (cname2, (enc2, dec2)) ∈ CODECS P → enc2 raw = Ok y2 →
            ("none", cname2, y2) ∈ candidates P raw) as Hplain.
  { intros cname2 enc2 dec2 y2 Hc2 Henc2.
    apply (candidates_intro P raw raw y2 "none" cname2
             (λ d, Ok (tf_none d)) (λ d, Ok (itf_none d)) enc2 dec2); try done.
    unfold TRANSFORMS. left. }
  pose proof (foldl_keep_smaller (candidates P raw)) as Hbest.
  rewrite <- strategy_search_best with (path := path) in Hbest.
  destruct ((strategy_search P path raw).1) as [[size [[tname' cname'] cdata]]|].
  - destruct Hbest as [-> Hmin]. exists (length cdata), tname', cname', cdata.
    split; [done|]. split; [done|].
    assert (∀ cname2 enc2 dec2 y2,
              (cname2, (enc2, dec2)) ∈ CODECS P → enc2 raw = Ok y2 →
              (length cdata ≤ length y2)%nat) as Hle.
    { intros cname2 enc2 dec2 y2 Hc2 Henc2.
      exact (first_min_le _ _ _ Hmin (Hplain _ _ _ _ Hc2 Henc2)). }
    split; [by eapply Hle|done].
  - pose proof (Hplain _ _ _ _ Hc Henc) as Hin. rewrite Hbest in Hin.
    by apply elem_of_nil in Hin.
Qed.

Lemma search_beats_plain_codecs_witness :
  ∃ size tname' cname' cdata,
    (strategy_search (demo_platform PNone) "g" aaa).1 = Some (size, (tname', cname', cdata))
    ∧ size = length cdata
    ∧ (length cdata ≤ length aaa)%nat
    ∧ ∀ cname2 enc2 dec2 y2,
        (cname2, (enc2, dec2)) ∈ CODECS (demo_platform PNone) → enc2 aaa = Ok y2 →
        (length cdata ≤ length y2)%nat.
Proof.
  apply (search_beats_plain_codecs (demo_platform PNone) "g" aaa aaa "zlib"
           (zlib_compress (demo_platform PNone)) (zlib_decompress (demo_platform PNone))).
  - unfold CODECS. left.
  - reflexivity.
Defined.
